(** * Expression grapher: tokenizer, recursive-descent parser and evaluator

    A shallow embedding of [main.py] and of [main_noannotate.py]: the
    tokenizer, the parser, the function tables, the evaluator and the loop
    of [draw] that plots the function, followed by the properties of the
    pipeline.

    Conventions of the embedding:
    - Python [float] is IEEE binary64, modelled by Rocq's primitive floats.
    - Python [str] is modelled by [string] (8-bit characters).
    - A Python call either returns or raises: [outcome A] is [Ok a] or
      [Raise e], threaded with a bind.
    - [while] loops and the recursion of [parse] that are not structural are
      driven by a fuel argument; [tokenize] and [parse] supply enough fuel,
      and this is proved ([tokenize_fueled], [parse_fueled]).
    - [parse], [eval_node] and the plot loop have no recursion limit;
      [parse_within], [eval_node_within] and [draw_columns_within] are the
      same code under the recursion limit of the interpreter, and under a
      [pygame.draw.line] that may raise.
    - Library functions whose value the program does not define ([**],
      [math.sin], [math.cos], [math.tan], [math.gamma], and [float()] on
      strings that are not digit/dot runs) are fields of the class
      [PyRuntime]; every theorem holds for every runtime.  Values are
      floats, as the annotations of [eval_node] declare: the complex result
      Python gives to a negative base raised to a fractional power is not
      modelled, and the properties of the plot under its limits are stated
      for equations without the operator [^]. *)

From Stdlib Require Import Floats ZArith String Ascii List Lia Bool.
From stdpp Require Import gmap strings list.

Set Default Proof Using "Type".

(** ** Exceptions and outcomes *)

Inductive exn : Type :=
  | IndexError                           (* list / string index out of range *)
  | KeyError (key : string)              (* variables[name], name unbound *)
  | ZeroDivisionError
  | OverflowError
  | FloatValueError (literal : string)   (* ValueError: could not convert string to float *)
  | MathValueError                       (* ValueError: math domain error *)
  | SyntaxError (msg : string)
  | NameError (msg : string)
  | OutOfFuel.                           (* the model's fuel ran out: not a Python exception *)

Inductive outcome (A : Type) : Type :=
  | Ok (a : A)
  | Raise (e : exn).
Arguments Ok {A} a.
Arguments Raise {A} e.

#[global] Instance outcome_ret : MRet outcome := λ A a, Ok a.
#[global] Instance outcome_bind : MBind outcome := λ A B f m,
  match m with
  | Ok a => f a
  | Raise e => Raise e
  end.

(** The exceptions a library call of the runtime may raise. *)
Inductive lib_exn : Type := LibValueError | LibOverflowError | LibZeroDivisionError.

Definition exn_of_lib (e : lib_exn) : exn :=
  match e with
  | LibValueError => MathValueError
  | LibOverflowError => OverflowError
  | LibZeroDivisionError => ZeroDivisionError
  end.

Definition lib_call (r : lib_exn + float) : outcome float :=
  match r with
  | inl e => Raise (exn_of_lib e)
  | inr v => Ok v
  end.

(** The part of the Python runtime the program calls but does not define. *)
Class PyRuntime : Type := {
  (* float(s) for a string s that is not a run of digits and dots
     (signs, exponents, inf/nan, blanks, underscores): None is ValueError *)
  float_other : string → option float;
  (* left ** right on floats *)
  float_pow : float → float → lib_exn + float;
  math_sin : float → lib_exn + float;
  math_cos : float → lib_exn + float;
  math_tan : float → lib_exn + float;
  math_gamma : float → lib_exn + float;
}.

(** A runtime without a math library: every call of it fails.  It serves to
    run the pipeline on closed inputs that use none of these calls. *)
Definition bare_runtime : PyRuntime := {|
  float_other := λ _, None;
  float_pow := λ _ _, inl LibValueError;
  math_sin := λ _, inl LibValueError;
  math_cos := λ _, inl LibValueError;
  math_tan := λ _, inl LibValueError;
  math_gamma := λ _, inl LibValueError;
|}.

(** ** Tokenizer *)

Definition set_of_str (s : string) : gset ascii :=
  list_to_set (list_ascii_of_string s).

Definition letters : gset ascii := set_of_str "abcdefghijklmnopqrstuvwxyz".
Definition numbers : gset ascii := set_of_str "0123456789.".

Inductive TokenType : Type :=
  | LPAREN | RPAREN | LCURLY | RCURLY | NUMBER | IDENT | OPERATOR.

#[global] Instance TokenType_eq_dec : EqDecision TokenType.
Proof. solve_decision. Defined.

Record Token : Type := mkToken { type : TokenType; value : string }.

Definition TokenType_str (t : TokenType) : string :=
  match t with
  | LPAREN => "TokenType.LPAREN"
  | RPAREN => "TokenType.RPAREN"
  | LCURLY => "TokenType.LCURLY"
  | RCURLY => "TokenType.RCURLY"
  | NUMBER => "TokenType.NUMBER"
  | IDENT => "TokenType.IDENT"
  | OPERATOR => "TokenType.OPERATOR"
  end.

(* Token.__repr__ *)
Definition Token_repr (tok : Token) : string :=
  "Token(" +:+ TokenType_str (type tok) +:+ ", " +:+ value tok +:+ ")".

Definition str1 (char : ascii) : string := String char EmptyString.

(* the loop of get_ident, [out] being the characters collected so far *)
Fixpoint get_ident_loop (out code : string) : outcome (string * string) :=
  match code with
  | EmptyString => Raise IndexError
  | String c code1 =>
      if bool_decide (c ∈ letters) then
        match code1 with
        | EmptyString => Ok (out +:+ str1 c, code1)
        | String _ _ => get_ident_loop (out +:+ str1 c) code1
        end
      else Ok (out, code)
  end.

Definition get_ident (code : string) : outcome (string * string) :=
  get_ident_loop "" code.

Fixpoint get_num_loop (out code : string) : outcome (string * string) :=
  match code with
  | EmptyString => Raise IndexError
  | String c code1 =>
      if bool_decide (c ∈ numbers) then
        match code1 with
        | EmptyString => Ok (out +:+ str1 c, code1)
        | String _ _ => get_num_loop (out +:+ str1 c) code1
        end
      else Ok (out, code)
  end.

Definition get_num (code : string) : outcome (string * string) :=
  get_num_loop "" code.

(** One iteration of the [while] loop of [tokenize]: from the token list
    built so far and the remaining text to the next pair. *)
Definition tokenize_body (tokens : list Token) (code : string)
  : outcome (list Token * string) :=
  match code with
  | EmptyString => Raise IndexError
  | String char code1 =>
      if Ascii.eqb char "(" then Ok (tokens ++ [mkToken LPAREN "("], code1)
      else if Ascii.eqb char ")" then Ok (tokens ++ [mkToken RPAREN ")"], code1)
      else if Ascii.eqb char "{" then Ok (tokens ++ [mkToken LCURLY "{"], code1)
      else if Ascii.eqb char "}" then Ok (tokens ++ [mkToken RCURLY "}"], code1)
      else if Ascii.eqb char "+" then Ok (tokens ++ [mkToken OPERATOR "+"], code1)
      else if Ascii.eqb char "-" then Ok (tokens ++ [mkToken OPERATOR "-"], code1)
      else if Ascii.eqb char "*" then Ok (tokens ++ [mkToken OPERATOR "*"], code1)
      else if Ascii.eqb char "/" then Ok (tokens ++ [mkToken OPERATOR "/"], code1)
      else if Ascii.eqb char "=" then Ok (tokens ++ [mkToken OPERATOR "="], code1)
      else if Ascii.eqb char "^" then Ok (tokens ++ [mkToken OPERATOR "^"], code1)
      else if Ascii.eqb char " " then Ok (tokens, code1)
      else if bool_decide (char ∈ letters) then
        '(ident, code) ← get_ident code;
        Ok (tokens ++ [mkToken IDENT ident], code)
      else if bool_decide (char ∈ numbers) then
        '(num, code) ← get_num code;
        Ok (tokens ++ [mkToken NUMBER num], code)
      else Raise (SyntaxError ("unknown character: " +:+ str1 char))
  end.

Fixpoint tokenize_loop (fuel : nat) (tokens : list Token) (code : string)
  : outcome (list Token) :=
  match code with
  | EmptyString => Ok tokens
  | String _ _ =>
      match fuel with
      | O => Raise OutOfFuel
      | S fuel =>
          '(tokens, code) ← tokenize_body tokens code;
          tokenize_loop fuel tokens code
      end
  end.

Definition tokenize (code : string) : outcome (list Token) :=
  tokenize_loop (String.length code) [] code.


(** ** Numeric literals: [float(literal)]

    On a run of digits and dots [float] accepts the literals with at most one
    dot and at least one digit, and returns the binary64 value nearest to the
    decimal (ties to even). *)

Definition digit_value (c : ascii) : N := (N_of_ascii c - 48)%N.

(* digits read so far as an integer, number of digits read, number of them
   after the dot ([None] until the dot is seen) *)
Fixpoint scan_decimal (s : string) (mant : N) (ndigits : nat) (frac : option nat)
  : option (N * nat) :=
  match s with
  | EmptyString =>
      match ndigits with
      | O => None
      | S _ => Some (mant, default 0 frac)
      end
  | String c s1 =>
      if Ascii.eqb c "." then
        match frac with
        | Some _ => None
        | None => scan_decimal s1 mant ndigits (Some 0)
        end
      else scan_decimal s1 (10 * mant + digit_value c)%N (S ndigits) (S <$> frac)
  end.

(* the binary64 nearest to mant / 10^frac *)
Definition float_of_decimal (mant : N) (frac : nat) : float :=
  match mant with
  | N0 => 0%float
  | Npos m =>
      SF2Prim (SFdiv prec emax (S754_finite false m 0)
                               (S754_finite false (Z.to_pos (10 ^ Z.of_nat frac)) 0))
  end.

Definition all_in (S : gset ascii) (s : string) : bool :=
  forallb (λ c, bool_decide (c ∈ S)) (list_ascii_of_string s).

(* the literal is a run of digits and dots *)
Definition is_numeric (s : string) : bool := all_in numbers s.

(* Node(NodeType.NUMBER, v), Node(NodeType.VARIABLE, name),
   Node(NodeType.EXPR, (op, left, right)), Node(NodeType.CALL, (fn_name, params)) *)
#[warnings="-register-all"]
Inductive Node : Type :=
  | NumberNode (v : float)
  | VariableNode (name : string)
  | ExprNode (op : string) (left right : Node)
  | CallNode (fn_name : string) (params : list Node).

(* the type of the table [functions] *)
Abbreviation registry := (gmap string (list float → outcome float)).

Section Pipeline.
Context `{RT : PyRuntime}.

(* float(literal) *)
Definition py_float (literal : string) : outcome float :=
  if is_numeric literal then
    match scan_decimal literal 0 0 None with
    | Some (mant, frac) => Ok (float_of_decimal mant frac)
    | None => Raise (FloatValueError literal)
    end
  else
    match float_other literal with
    | Some v => Ok v
    | None => Raise (FloatValueError literal)
    end.

(** ** Parser *)

(** [parse], with the two [while] loops of its LPAREN and LCURLY branches:
    [paren_loop] starts at [tok = tokens[0]] with the accumulated [val],
    [curly_loop] at the test [tokens[0].type != RCURLY] with the [params]
    collected so far. *)
Fixpoint parse_fuel (fuel : nat) (tokens : list Token) {struct fuel}
  : outcome (list Token * Node) :=
  match fuel with
  | O => Raise OutOfFuel
  | S fuel =>
      match tokens with
      | [] => Raise IndexError
      | tok :: tokens1 =>
          match type tok with
          | IDENT => Ok (tokens1, VariableNode (value tok))
          | NUMBER => v ← py_float (value tok); Ok (tokens1, NumberNode v)
          | LPAREN =>
              '(tokens, val) ← parse_fuel fuel tokens1;
              paren_loop fuel tokens val
          | LCURLY =>
              match tokens1 with
              | [] => Raise IndexError
              | fn_tok :: tokens2 =>
                  '(tokens, params) ← curly_loop fuel tokens2 [];
                  Ok (tokens, CallNode (value fn_tok) params)
              end
          | _ => Raise (SyntaxError ("unexpected token: " +:+ Token_repr tok))
          end
      end
  end
with paren_loop (fuel : nat) (tokens : list Token) (val : Node) {struct fuel}
  : outcome (list Token * Node) :=
  match fuel with
  | O => Raise OutOfFuel
  | S fuel =>
      match tokens with
      | [] => Raise IndexError
      | tok :: tokens1 =>
          if decide (type tok = RPAREN) then Ok (tokens1, val)
          else
            '(tokens, right_node) ← parse_fuel fuel tokens1;
            paren_loop fuel tokens (ExprNode (value tok) val right_node)
      end
  end
with curly_loop (fuel : nat) (tokens : list Token) (params : list Node) {struct fuel}
  : outcome (list Token * list Node) :=
  match fuel with
  | O => Raise OutOfFuel
  | S fuel =>
      match tokens with
      | [] => Raise IndexError
      | tok :: tokens1 =>
          if decide (type tok = RCURLY) then Ok (tokens1, params)
          else
            '(tokens, param) ← parse_fuel fuel tokens;
            curly_loop fuel tokens (params ++ [param])
      end
  end.

Definition parse_bound (tokens : list Token) : nat := 2 * length tokens + 1.

Definition parse (tokens : list Token) : outcome (list Token * Node) :=
  parse_fuel (parse_bound tokens) tokens.

(** ** Function table and evaluator *)

(* inp[0] *)
Definition first_arg (inp : list float) : outcome float :=
  match inp !! 0%nat with
  | Some a => Ok a
  | None => Raise IndexError
  end.

Definition math_sqrt (a : float) : outcome float :=
  if (a <? 0)%float then Raise MathValueError else Ok (PrimFloat.sqrt a).

(* the lambdas of the table [functions] *)
Definition sqrt_entry : list float → outcome float :=
  λ inp, a ← first_arg inp; math_sqrt a.
Definition sin_entry : list float → outcome float :=
  λ inp, a ← first_arg inp; lib_call (math_sin a).
Definition cos_entry : list float → outcome float :=
  λ inp, a ← first_arg inp; lib_call (math_cos a).
Definition tan_entry : list float → outcome float :=
  λ inp, a ← first_arg inp; lib_call (math_tan a).
Definition fact_entry : list float → outcome float :=
  λ inp, a ← first_arg inp; g ← lib_call (math_gamma a);
         b ← first_arg inp; Ok (g * b)%float.

Definition eval_params (eval : Node → outcome float)
  : list Node → outcome (list float) :=
  fix go (params : list Node) : outcome (list float) :=
    match params with
    | [] => Ok []
    | param :: params =>
        a ← eval param;
        args ← go params;
        Ok (a :: args)
    end.

(* [functions] is the module-level table; the final branch of the source,
   for a node of no known type, has no counterpart: [Node] has four cases *)
Fixpoint eval_node (functions : registry) (node : Node)
    (variables : gmap string float) : outcome float :=
  match node with
  | NumberNode v => Ok v
  | VariableNode name =>
      match variables !! name with
      | Some v => Ok v
      | None => Raise (KeyError name)
      end
  | ExprNode op left_node right_node =>
      left_val ← eval_node functions left_node variables;
      right_val ← eval_node functions right_node variables;
      if String.eqb op "+" then Ok (left_val + right_val)%float
      else if String.eqb op "-" then Ok (left_val - right_val)%float
      else if String.eqb op "*" then Ok (left_val * right_val)%float
      else if String.eqb op "/" then
        if (right_val =? 0)%float then Raise ZeroDivisionError
        else Ok (left_val / right_val)%float
      else if String.eqb op "^" then lib_call (float_pow left_val right_val)
      else Raise (SyntaxError ("unknown operator: " +:+ op))
  | CallNode fn_name params =>
      match functions !! fn_name with
      | Some fn =>
          args ← eval_params (λ param, eval_node functions param variables) params;
          fn args
      | None => Raise (NameError ("unknown function: " +:+ fn_name))
      end
  end.

End Pipeline.

(** The module-level table [functions] of each of the two programs. *)
Module main.
Section Table.
Context `{RT : PyRuntime}.

Definition functions : registry :=
  list_to_map [
    ("sqrt", sqrt_entry)
  ].

(* (_, ast) = parse(tokenize(text)); eval_node(ast, variables) *)
Definition run (text : string) (variables : gmap string float) : outcome float :=
  tokens ← tokenize text;
  '(_, ast) ← parse tokens;
  eval_node functions ast variables.

End Table.
End main.

Module main_noannotate.
Section Table.
Context `{RT : PyRuntime}.

Definition functions : registry :=
  list_to_map [
    ("sqrt", sqrt_entry);
    ("sin", sin_entry);
    ("cos", cos_entry);
    ("tan", tan_entry);
    ("fact", fact_entry)
  ].

Definition run (text : string) (variables : gmap string float) : outcome float :=
  tokens ← tokenize text;
  '(_, ast) ← parse tokens;
  eval_node functions ast variables.

End Table.
End main_noannotate.

(** ** The plot of main_noannotate.py

    The module-level variables [scale], [offx] and [offy] are the fields of
    a [View] passed to the functions that read them.  Of [draw], the loop
    that plots the function is modelled ([draw_function]); its effect, the
    calls of [pygame.draw.line], is the list of the lines drawn, in order;
    what pygame does with a line is outside the model.  The axes, the tick
    labels and the event loop, which are calls of pygame, are not part of
    the model. *)

(* the float of an int operand in mixed arithmetic: the nearest binary64;
   the OverflowError of an int beyond the floats is not modelled (the ints
   of the plot are pixel columns and rows) *)
Definition float_of_int (z : Z) : float :=
  match z with
  | Z0 => 0%float
  | _ => SF2Prim (binary_normalize prec emax z 0 false)
  end.

Definition WIDTH : Z := 800.
Definition HEIGHT : Z := 800.

Record View : Type := mkView { scale : float; offx : float; offy : float }.

(* scale = WIDTH / 20, offx = WIDTH / 2, offy = HEIGHT / 2 *)
Definition home : View := {|
  scale := float_of_int WIDTH / float_of_int 20;
  offx := float_of_int WIDTH / float_of_int 2;
  offy := float_of_int HEIGHT / float_of_int 2;
|}.

(* a / b on floats *)
Definition float_truediv (a b : float) : outcome float :=
  if (b =? 0)%float then Raise ZeroDivisionError else Ok (a / b)%float.

Definition coord_to_screen (view : View) (x y : float) : float * float :=
  let y := (- y)%float in
  let x := (x * scale view)%float in
  let y := (y * scale view)%float in
  let x := (x + offx view)%float in
  let y := (y + offy view)%float in
  (x, y).

Definition screenx_to_coord (view : View) (x : Z) : outcome float :=
  float_truediv (float_of_int x - offx view) (scale view).

Definition screeny_to_coord (view : View) (y : Z) : outcome float :=
  v ← float_truediv (float_of_int y - offy view) (scale view);
  Ok (- v)%float.

(* range(0, n) *)
Definition range0 (n : Z) : list Z := map Z.of_nat (seq 0 (Z.to_nat n)).

(* prevxv, prevyv, noprev *)
Record PlotState : Type := mkPlot { prevxv : float; prevyv : float; noprev : bool }.

(* pygame.draw.line(win, (255, 0, 0), start, end, width=2) *)
Definition line : Type := (float * float) * (float * float).

(* except (ZeroDivisionError, ValueError) *)
Definition caught (e : exn) : bool :=
  match e with
  | ZeroDivisionError | FloatValueError _ | MathValueError => true
  | _ => false
  end.

Section Plot.
Context `{RT : PyRuntime}.

(* the body of [for x in range(0, WIDTH)], over the columns left *)
Fixpoint draw_columns (view : View) (eq : Node) (columns : list Z)
    (st : PlotState) (lines : list line) : outcome (list line) :=
  match columns with
  | [] => Ok lines
  | x :: columns =>
      xv ← screenx_to_coord view x;
      match eval_node main_noannotate.functions eq {["x" := xv]} with
      | Raise e =>
          if caught e then
            draw_columns view eq columns (mkPlot (prevxv st) (prevyv st) true) lines
          else Raise e
      | Ok yv =>
          if noprev st then
            draw_columns view eq columns (mkPlot xv yv false) lines
          else
            draw_columns view eq columns (mkPlot xv yv false)
              (lines ++ [(coord_to_screen view (prevxv st) (prevyv st),
                          coord_to_screen view xv yv)])
      end
  end.

Definition draw_function (view : View) (eq : Node) : outcome (list line) :=
  draw_columns view eq (range0 WIDTH) (mkPlot 0 0 true) [].

End Plot.

(** ** The limits of the interpreter and of the display

    [parse] and [eval_node] recurse on the nesting of their input, and the
    interpreter raises RecursionError at a call for which the frames left
    under its recursion limit do not suffice.  [parse_within],
    [eval_node_within] and [draw_columns_within] are [parse], [eval_node]
    and the plot loop given the number of frames left: how many calls of
    functions written in Python may still nest.  The calls of builtins
    ([float], [append], the functions of [math]) and the access to a member
    of an Enum stack no frame.  The plot loop is also given a
    [pygame.draw.line] that may raise. *)

(* a call under the recursion limit: what it returns or raises as long as
   the frames suffice, or the RecursionError of the interpreter *)
Inductive limited (A : Type) : Type :=
  | Within (r : outcome A)
  | RecursionError.
Arguments Within {A} r.
Arguments RecursionError {A}.

#[global] Instance limited_ret : MRet limited := λ A a, Within (Ok a).
#[global] Instance limited_bind : MBind limited := λ A B f m,
  match m with
  | Within (Ok a) => f a
  | Within (Raise e) => Within (Raise e)
  | RecursionError => RecursionError
  end.

(** The frames the interpreter stacks under a frame of the program for what
    the program does not define. *)
Class Interpreter : Type := {
  (* str(tok): Token.__repr__ and the formatting of the Enum under it *)
  repr_frames : nat;
  (* the list comprehension of a CALL node: 0 where the interpreter inlines
     it, 1 where it is a function of its own *)
  comprehension_frames : nat;
}.

(** pygame.draw.line on the end points of a line: whether it returns; it
    raises TypeError on end points it cannot take as pixel coordinates. *)
Class Display : Type := {
  pygame_draw_line : line → bool;
}.

(* a call that stacks [cost] frames, made with [frames] frames left *)
Definition call_with {A} (cost frames : nat) (r : outcome A) : limited A :=
  if decide (cost ≤ frames) then Within r else RecursionError.

(* what the loop of the plot comes to *)
Inductive plot_outcome : Type :=
  | Plotted (lines : list line)     (* the loop ends, these lines drawn *)
  | PlotRaise (e : exn)             (* an exception the loop does not catch *)
  | PlotRecursionError
  | LineRefused (ln : line).        (* the exception of pygame.draw.line *)

Section Limits.
Context `{RT : PyRuntime} `{IP : Interpreter}.

(** [parse] with [frames] frames left for its own frame and those under it;
    the loops run in the frame of their call, with [frames] left under
    it. *)
Fixpoint parse_lim (fuel frames : nat) (tokens : list Token) {struct fuel}
  : limited (list Token * Node) :=
  match frames with
  | O => RecursionError
  | S frames =>
      match fuel with
      | O => Within (Raise OutOfFuel)
      | S fuel =>
          match tokens with
          | [] => Within (Raise IndexError)
          | tok :: tokens1 =>
              match type tok with
              | IDENT => Within (Ok (tokens1, VariableNode (value tok)))
              | NUMBER =>
                  Within (v ← py_float (value tok); Ok (tokens1, NumberNode v))
              | LPAREN =>
                  '(tokens, val) ← parse_lim fuel frames tokens1;
                  paren_lim fuel frames tokens val
              | LCURLY =>
                  match tokens1 with
                  | [] => Within (Raise IndexError)
                  | fn_tok :: tokens2 =>
                      '(tokens, params) ← curly_lim fuel frames tokens2 [];
                      Within (Ok (tokens, CallNode (value fn_tok) params))
                  end
              | _ =>
                  call_with repr_frames frames
                    (Raise (SyntaxError ("unexpected token: " +:+ Token_repr tok)))
              end
          end
      end
  end
with paren_lim (fuel frames : nat) (tokens : list Token) (val : Node) {struct fuel}
  : limited (list Token * Node) :=
  match fuel with
  | O => Within (Raise OutOfFuel)
  | S fuel =>
      match tokens with
      | [] => Within (Raise IndexError)
      | tok :: tokens1 =>
          if decide (type tok = RPAREN) then Within (Ok (tokens1, val))
          else
            '(tokens, right_node) ← parse_lim fuel frames tokens1;
            paren_lim fuel frames tokens (ExprNode (value tok) val right_node)
      end
  end
with curly_lim (fuel frames : nat) (tokens : list Token) (params : list Node)
    {struct fuel} : limited (list Token * list Node) :=
  match fuel with
  | O => Within (Raise OutOfFuel)
  | S fuel =>
      match tokens with
      | [] => Within (Raise IndexError)
      | tok :: tokens1 =>
          if decide (type tok = RCURLY) then Within (Ok (tokens1, params))
          else
            '(tokens, param) ← parse_lim fuel frames tokens;
            curly_lim fuel frames tokens (params ++ [param])
      end
  end.

Definition parse_within (frames : nat) (tokens : list Token)
  : limited (list Token * Node) :=
  parse_lim (parse_bound tokens) frames tokens.

(* the operator of an EXPR node on the values of its operands *)
Definition binary_op (op : string) (left_val right_val : float) : outcome float :=
  if String.eqb op "+" then Ok (left_val + right_val)%float
  else if String.eqb op "-" then Ok (left_val - right_val)%float
  else if String.eqb op "*" then Ok (left_val * right_val)%float
  else if String.eqb op "/" then
    if (right_val =? 0)%float then Raise ZeroDivisionError
    else Ok (left_val / right_val)%float
  else if String.eqb op "^" then lib_call (float_pow left_val right_val)
  else Raise (SyntaxError ("unknown operator: " +:+ op)).

Definition eval_params_within (eval : Node → limited float)
  : list Node → limited (list float) :=
  fix go (params : list Node) : limited (list float) :=
    match params with
    | [] => Within (Ok [])
    | param :: params =>
        a ← eval param;
        args ← go params;
        Within (Ok (a :: args))
    end.

(** [eval_node] with [frames] frames left for its own frame and those under
    it; the lambda of the table takes one frame. *)
Fixpoint eval_node_within (functions : registry) (frames : nat) (node : Node)
    (variables : gmap string float) {struct node} : limited float :=
  match frames with
  | O => RecursionError
  | S frames =>
      match node with
      | NumberNode v => Within (Ok v)
      | VariableNode name =>
          Within (match variables !! name with
                  | Some v => Ok v
                  | None => Raise (KeyError name)
                  end)
      | ExprNode op left_node right_node =>
          left_val ← eval_node_within functions frames left_node variables;
          right_val ← eval_node_within functions frames right_node variables;
          Within (binary_op op left_val right_val)
      | CallNode fn_name params =>
          match functions !! fn_name with
          | Some fn =>
              if decide (comprehension_frames ≤ frames) then
                args ← eval_params_within
                         (λ param, eval_node_within functions
                                     (frames - comprehension_frames) param variables)
                         params;
                call_with 1 frames (fn args)
              else RecursionError
          | None => Within (Raise (NameError ("unknown function: " +:+ fn_name)))
          end
      end
  end.

Context `{DP : Display}.

(** The loop of the plot with [frames] frames left under the frame of
    [draw]: [screenx_to_coord] and [coord_to_screen] take one. *)
Fixpoint draw_columns_within (frames : nat) (view : View) (eq : Node)
    (columns : list Z) (st : PlotState) (lines : list line) : plot_outcome :=
  match columns with
  | [] => Plotted lines
  | x :: columns =>
      match call_with 1 frames (screenx_to_coord view x) with
      | RecursionError => PlotRecursionError
      | Within (Raise e) => PlotRaise e
      | Within (Ok xv) =>
          match eval_node_within main_noannotate.functions frames eq {["x" := xv]} with
          | RecursionError => PlotRecursionError
          | Within (Raise e) =>
              if caught e then
                draw_columns_within frames view eq columns
                  (mkPlot (prevxv st) (prevyv st) true) lines
              else PlotRaise e
          | Within (Ok yv) =>
              if noprev st then
                draw_columns_within frames view eq columns (mkPlot xv yv false) lines
              else
                let ln := (coord_to_screen view (prevxv st) (prevyv st),
                           coord_to_screen view xv yv) in
                if pygame_draw_line ln then
                  draw_columns_within frames view eq columns (mkPlot xv yv false)
                    (lines ++ [ln])
                else LineRefused ln
          end
      end
  end.

Definition draw_function_within (frames : nat) (view : View) (eq : Node)
  : plot_outcome :=
  draw_columns_within frames view eq (range0 WIDTH) (mkPlot 0 0 true) [].

End Limits.

(* an interpreter that inlines comprehensions and formats a token in three
   frames: Token.__repr__, Enum.__format__, Enum.__str__ *)
Definition inlining_interpreter : Interpreter := {|
  repr_frames := 3;
  comprehension_frames := 0;
|}.

(* a display that takes every line *)
Definition lenient_display : Display := {|
  pygame_draw_line := λ _, true;
|}.

(** * Vocabulary of the properties *)

(* the operator strings of the EXPR nodes of a tree *)
Fixpoint node_ops (node : Node) : list string :=
  match node with
  | NumberNode _ | VariableNode _ => []
  | ExprNode op l r => op :: node_ops l ++ node_ops r
  | CallNode _ params => concat (map node_ops params)
  end.

Definition consumes (tokens rest : list Token) : Prop :=
  ∃ consumed, consumed ≠ [] ∧ tokens = consumed ++ rest.

Definition literal_of (tokens : list Token) (op : string) : Prop :=
  ∃ tok, tok ∈ tokens ∧ value tok = op.

(* the longest prefix of [code] made of characters of [S], and what follows *)
Fixpoint span_run (S : gset ascii) (code : string) : string * string :=
  match code with
  | EmptyString => (EmptyString, EmptyString)
  | String c code1 =>
      if bool_decide (c ∈ S) then
        (String c (span_run S code1).1, (span_run S code1).2)
      else (EmptyString, code)
  end.

(* [code] is empty or starts outside [S] *)
Definition stops (S : gset ascii) (code : string) : Prop :=
  match code with
  | EmptyString => True
  | String c _ => c ∉ S
  end.

(* the characters for which the if/elif chain of [tokenize] has a branch *)
Definition accepted (char : ascii) : bool :=
  Ascii.eqb char "(" || Ascii.eqb char ")" || Ascii.eqb char "{" || Ascii.eqb char "}"
  || Ascii.eqb char "+" || Ascii.eqb char "-" || Ascii.eqb char "*" || Ascii.eqb char "/"
  || Ascii.eqb char "=" || Ascii.eqb char "^" || Ascii.eqb char " "
  || bool_decide (char ∈ letters) || bool_decide (char ∈ numbers).

(* the first character of the text that has no branch *)
Fixpoint first_unknown (code : string) : option ascii :=
  match code with
  | EmptyString => None
  | String c code1 => if accepted c then first_unknown code1 else Some c
  end.

Definition operator_literals : list string := ["+"; "-"; "*"; "/"; "="; "^"].

(* what the tokenizer puts in a token of each type *)
Definition lexeme_ok (tok : Token) : bool :=
  match type tok with
  | LPAREN => String.eqb (value tok) "("
  | RPAREN => String.eqb (value tok) ")"
  | LCURLY => String.eqb (value tok) "{"
  | RCURLY => String.eqb (value tok) "}"
  | OPERATOR => bool_decide (value tok ∈ operator_literals)
  | IDENT => negb (String.eqb (value tok) "") && all_in letters (value tok)
  | NUMBER => negb (String.eqb (value tok) "") && all_in numbers (value tok)
  end.

(** The characters with a branch are the ten one-character tokens, the
    space, the lower-case ASCII letters, the digits and the dot. *)
Definition char_class (c : ascii) : bool :=
  let n := nat_of_ascii c in
  bool_decide (c ∈ list_ascii_of_string "(){}+-*/=^")
  || bool_decide (n = 32)
  || bool_decide (97 ≤ n ≤ 122)
  || bool_decide (48 ≤ n ≤ 57)
  || bool_decide (n = 46).


(* an iteration of [tokenize] on [c] drops it and appends nothing *)
Definition skips (c : ascii) : Prop :=
  ∀ tokens code, tokenize_body tokens (String c code) = Ok (tokens, code).

Fixpoint count_dots (s : string) : nat :=
  match s with
  | EmptyString => 0
  | String c s1 => (if Ascii.eqb c "." then 1 else 0) + count_dots s1
  end.

(* a digit/dot run that float() rejects: two dots or more, or no digit *)
Definition malformed (literal : string) : Prop :=
  2 ≤ count_dots literal ∨ count_dots literal = String.length literal.

(* the five operators [eval_node] has a branch for *)
Definition known_operators : list string := ["+"; "-"; "*"; "/"; "^"].

(* an operator position of a group: the token taken as operator, then the
   tokens of the operand that follows and the tree they parse to *)
Record group_item : Type := mkItem {
  item_op : Token;
  item_tokens : list Token;
  item_node : Node;
}.

(* the tokens of a group after its first operand, up to the parenthesis *)
Fixpoint group_tail (items : list group_item) : list Token :=
  match items with
  | [] => []
  | item :: items => item_op item :: item_tokens item ++ group_tail items
  end.

(* the tree of a group: a chain of EXPR nodes leaning to the left *)
Definition left_chain (first : Node) (items : list group_item) : Node :=
  fold_left (λ acc item, ExprNode (value (item_op item)) acc (item_node item))
            items first.

(* the tokens of the arguments of a call, each argument given with the tree
   it parses to *)
Fixpoint args_tokens (args : list (list Token * Node)) : list Token :=
  match args with
  | [] => []
  | arg :: args => arg.1 ++ args_tokens args
  end.

Section Vocabulary.
Context `{RT : PyRuntime}.

(** The two loops with the fuel their token list asks for. *)
Definition paren_rest (tokens : list Token) (val : Node) : outcome (list Token * Node) :=
  paren_loop (parse_bound tokens) tokens val.

Definition curly_rest (tokens : list Token) (params : list Node)
  : outcome (list Token * list Node) :=
  curly_loop (S (parse_bound tokens)) tokens params.

(* the table of one of the two programs *)
Definition program_table (functions : registry) : Prop :=
  functions = main.functions ∨ functions = main_noannotate.functions.

(* [tokens] is one operand: in front of any text, [parse] turns it into
   [node] and returns what follows *)
Definition parses (tokens : list Token) (node : Node) : Prop :=
  ∀ rest, parse (tokens ++ rest) = Ok (rest, node).

Definition operand (item : group_item) : Prop :=
  type (item_op item) ≠ RPAREN ∧ parses (item_tokens item) (item_node item).

Definition argument (arg : list Token * Node) : Prop := parses arg.1 arg.2.

End Vocabulary.

(** * Vocabulary of the further properties *)

(* the text without its spaces *)
Fixpoint strip_spaces (code : string) : string :=
  match code with
  | EmptyString => EmptyString
  | String c code1 =>
      if Ascii.eqb c " " then strip_spaces code1 else String c (strip_spaces code1)
  end.

(* the literals of the tokens, one after the other *)
Fixpoint literals (tokens : list Token) : string :=
  match tokens with
  | [] => EmptyString
  | tok :: tokens => value tok +:+ literals tokens
  end.

(* the names of the VARIABLE nodes of a tree *)
Fixpoint node_vars (node : Node) : list string :=
  match node with
  | NumberNode _ => []
  | VariableNode name => [name]
  | ExprNode _ l r => node_vars l ++ node_vars r
  | CallNode _ params => concat (map node_vars params)
  end.

(* the CALL nodes of a tree: function name and number of parameters *)
Fixpoint node_calls (node : Node) : list (string * nat) :=
  match node with
  | NumberNode _ | VariableNode _ => []
  | ExprNode _ l r => node_calls l ++ node_calls r
  | CallNode fn_name params =>
      (fn_name, length params) :: concat (map node_calls params)
  end.

(* the exceptions of [parse]: an index out of range, the SyntaxError of a
   token that cannot start an expression, the ValueError of a NUMBER
   literal *)
Definition parse_failure (tokens : list Token) (e : exn) : Prop :=
  e = IndexError ∨
  (∃ tok, tok ∈ tokens ∧ type tok ∈ [RPAREN; RCURLY; OPERATOR] ∧
          e = SyntaxError ("unexpected token: " +:+ Token_repr tok)) ∨
  (∃ tok, tok ∈ tokens ∧ type tok = NUMBER ∧ e = FloatValueError (value tok)).

(* where an exception of [eval_node] comes from in the tree *)
Definition eval_failure (functions : registry) (node : Node)
    (variables : gmap string float) (e : exn) : Prop :=
  match e with
  | KeyError name => name ∈ node_vars node ∧ variables !! name = None
  | NameError msg =>
      ∃ fn_name n, (fn_name, n) ∈ node_calls node ∧ functions !! fn_name = None ∧
                   msg = "unknown function: " +:+ fn_name
  | IndexError =>
      ∃ fn_name, (fn_name, 0) ∈ node_calls node ∧ is_Some (functions !! fn_name)
  | SyntaxError msg =>
      ∃ op, op ∈ node_ops node ∧ (op ∉ known_operators) ∧
            msg = "unknown operator: " +:+ op
  | FloatValueError _ | OutOfFuel => False
  | ZeroDivisionError | OverflowError | MathValueError => True
  end.

Section PlotVocabulary.
Context `{RT : PyRuntime}.

(* the screen point of column [x]: its coordinate evaluates and so does the
   equation there *)
Definition plotted (view : View) (eq : Node) (x : Z) (p : float * float) : Prop :=
  ∃ xv yv,
    screenx_to_coord view x = Ok xv ∧
    eval_node main_noannotate.functions eq {["x" := xv]} = Ok yv ∧
    p = coord_to_screen view xv yv.

(* the screen point of column [x], computed *)
Definition plot_point (view : View) (eq : Node) (x : Z) : option (float * float) :=
  match screenx_to_coord view x with
  | Ok xv =>
      match eval_node main_noannotate.functions eq {["x" := xv]} with
      | Ok yv => Some (coord_to_screen view xv yv)
      | Raise _ => None
      end
  | Raise _ => None
  end.

End PlotVocabulary.


Section WithinVocabulary.
Context `{RT : PyRuntime} `{IP : Interpreter}.

(* the screen point of column [x], with [frames] frames left for the
   evaluation *)
Definition plotted_within (frames : nat) (view : View) (eq : Node) (x : Z)
    (p : float * float) : Prop :=
  ∃ xv yv,
    screenx_to_coord view x = Ok xv ∧
    eval_node_within main_noannotate.functions frames eq {["x" := xv]}
      = Within (Ok yv) ∧
    p = coord_to_screen view xv yv.

(* column [x] does not stop the plot: its coordinate evaluates, and within
   the frames left the equation there evaluates or raises an exception the
   loop catches *)
Definition passes_within (frames : nat) (view : View) (eq : Node) (x : Z) : Prop :=
  ∃ xv r,
    screenx_to_coord view x = Ok xv ∧
    eval_node_within main_noannotate.functions frames eq {["x" := xv]} = Within r ∧
    ∀ e, r = Raise e → caught e = true.

(* the screen point of column [x], computed *)
Definition plot_point_within (frames : nat) (view : View) (eq : Node) (x : Z)
  : option (float * float) :=
  match screenx_to_coord view x with
  | Ok xv =>
      match eval_node_within main_noannotate.functions frames eq {["x" := xv]} with
      | Within (Ok yv) => Some (coord_to_screen view xv yv)
      | _ => None
      end
  | Raise _ => None
  end.

End WithinVocabulary.

(* the tree of "(1 / x)" *)
Definition reciprocal : Node := ExprNode "/" (NumberNode 1) (VariableNode "x").

(* a polyline: the lines from each point to the next *)
Fixpoint polyline (points : list (float * float)) : list line :=
  match points with
  | p :: (q :: _) as rest => (p, q) :: polyline rest
  | _ => []
  end.

(* column and row of the home view come back from their coordinates *)
Definition column_round_trip (x : Z) : bool :=
  match screenx_to_coord home x with
  | Ok xv => ((coord_to_screen home xv 0).1 =? float_of_int x)%float
  | Raise _ => false
  end.

Definition row_round_trip (y : Z) : bool :=
  match screeny_to_coord home y with
  | Ok yv => ((coord_to_screen home 0 yv).2 =? float_of_int y)%float
  | Raise _ => false
  end.

(** * Properties *)

(** ** Bind *)

Lemma bind_Ok {A B} (f : A → outcome B) (m : outcome A) (b : B) :
  m ≫= f = Ok b → ∃ a, m = Ok a ∧ f a = Ok b.
Proof. destruct m as [a|e]; simpl; [eauto | discriminate]. Qed.

Lemma bind_ok_l {A B} (f : A → outcome B) (a : A) : Ok a ≫= f = f a.
Proof. reflexivity. Qed.

Lemma bind_Raise {A B} (f : A → outcome B) (m : outcome A) (e : exn) :
  m ≫= f = Raise e → m = Raise e ∨ ∃ a, m = Ok a ∧ f a = Raise e.
Proof. destruct m as [a|e']; simpl; [eauto | intros [= ->]; auto]. Qed.

(** ** Structure of [Node] *)

(* induction on a tree, with the hypothesis for every parameter of a call *)
Lemma Node_nested_ind (P : Node → Prop) :
  (∀ v, P (NumberNode v)) →
  (∀ name, P (VariableNode name)) →
  (∀ op l r, P l → P r → P (ExprNode op l r)) →
  (∀ fn_name params, Forall P params → P (CallNode fn_name params)) →
  ∀ node, P node.
Proof.
  intros Hnumber Hvariable Hexpr Hcall.
  fix IH 1. intros [v|name|op l r|fn_name params].
  - apply Hnumber.
  - apply Hvariable.
  - apply Hexpr; apply IH.
  - apply Hcall. induction params as [|p ps IHps]; constructor.
    + apply IH.
    + apply IHps.
Qed.

Lemma elem_of_call_ops op params :
  op ∈ concat (map node_ops params) ↔ ∃ p, p ∈ params ∧ op ∈ node_ops p.
Proof.
  rewrite list_elem_of_In, in_concat. split.
  - intros (ops & (p & <- & Hp)%in_map_iff & Hop).
    exists p. by rewrite !list_elem_of_In.
  - intros (p & Hp & Hop). exists (node_ops p).
    rewrite <- !list_elem_of_In. split; [|done].
    apply list_elem_of_In, in_map, list_elem_of_In, Hp.
Qed.

(** ** The parser consumes a non-empty prefix *)

Lemma consumes_head tok rest : consumes (tok :: rest) rest.
Proof. by exists [tok]. Qed.

Lemma consumes_cons tok tokens rest : consumes tokens rest → consumes (tok :: tokens) rest.
Proof. intros (c & _ & ->). by exists (tok :: c). Qed.

Lemma consumes_trans tokens mid rest :
  consumes tokens mid → consumes mid rest → consumes tokens rest.
Proof.
  intros (c1 & H1 & ->) (c2 & _ & ->). exists (c1 ++ c2). split.
  - by destruct c1.
  - by rewrite <- app_assoc.
Qed.

Lemma consumes_length tokens rest : consumes tokens rest → length rest < length tokens.
Proof.
  intros (c & Hc & ->). rewrite length_app. destruct c; [done | simpl; lia].
Qed.

Section ParserFacts.
Context `{RT : PyRuntime}.

Lemma parse_fuel_S fuel tokens :
  parse_fuel (S fuel) tokens =
  match tokens with
  | [] => Raise IndexError
  | tok :: tokens1 =>
      match type tok with
      | IDENT => Ok (tokens1, VariableNode (value tok))
      | NUMBER => v ← py_float (value tok); Ok (tokens1, NumberNode v)
      | LPAREN =>
          '(tokens, val) ← parse_fuel fuel tokens1;
          paren_loop fuel tokens val
      | LCURLY =>
          match tokens1 with
          | [] => Raise IndexError
          | fn_tok :: tokens2 =>
              '(tokens, params) ← curly_loop fuel tokens2 [];
              Ok (tokens, CallNode (value fn_tok) params)
          end
      | _ => Raise (SyntaxError ("unexpected token: " +:+ Token_repr tok))
      end
  end.
Proof. reflexivity. Qed.

Lemma paren_loop_S fuel tokens val :
  paren_loop (S fuel) tokens val =
  match tokens with
  | [] => Raise IndexError
  | tok :: tokens1 =>
      if decide (type tok = RPAREN) then Ok (tokens1, val)
      else
        '(tokens, right_node) ← parse_fuel fuel tokens1;
        paren_loop fuel tokens (ExprNode (value tok) val right_node)
  end.
Proof. reflexivity. Qed.

Lemma curly_loop_S fuel tokens params :
  curly_loop (S fuel) tokens params =
  match tokens with
  | [] => Raise IndexError
  | tok :: tokens1 =>
      if decide (type tok = RCURLY) then Ok (tokens1, params)
      else
        '(tokens, param) ← parse_fuel fuel tokens;
        curly_loop fuel tokens (params ++ [param])
  end.
Proof. reflexivity. Qed.

Lemma parse_consumes fuel :
  (∀ tokens rest node,
     parse_fuel fuel tokens = Ok (rest, node) → consumes tokens rest) ∧
  (∀ tokens val rest node,
     paren_loop fuel tokens val = Ok (rest, node) → consumes tokens rest) ∧
  (∀ tokens params rest ps,
     curly_loop fuel tokens params = Ok (rest, ps) → consumes tokens rest).
Proof.
  induction fuel as [|fuel (IHp & IHl & IHc)]; [by repeat split|].
  repeat split.
  - intros [|tok tokens1] rest node; rewrite parse_fuel_S; [done|].
    destruct (type tok); try done.
    + intros ([tokens val] & H1 & H2)%bind_Ok.
      apply consumes_cons. eauto using consumes_trans.
    + destruct tokens1 as [|fn_tok tokens2]; [done|].
      intros ([tokens params] & H1 & [= <- _])%bind_Ok.
      eauto using consumes_cons.
    + intros (v & _ & [= <- _])%bind_Ok. apply consumes_head.
    + intros [= <- _]. apply consumes_head.
  - intros [|tok tokens1] val rest node; rewrite paren_loop_S; [done|].
    case_decide.
    + intros [= <- _]. apply consumes_head.
    + intros ([tokens r] & H1 & H2)%bind_Ok.
      apply consumes_cons. eauto using consumes_trans.
  - intros [|tok tokens1] params rest ps; rewrite curly_loop_S; [done|].
    case_decide.
    + intros [= <- _]. apply consumes_head.
    + intros ([tokens p] & H1 & H2)%bind_Ok.
      eauto using consumes_trans.
Qed.

Lemma parse_fuel_consumes fuel tokens rest node :
  parse_fuel fuel tokens = Ok (rest, node) → consumes tokens rest.
Proof. apply parse_consumes. Qed.

(** ** The fuel of [parse] is enough, and more fuel changes nothing *)

Lemma bind_fueled {A B} (m : outcome A) (f : A → outcome B) :
  m ≠ Raise OutOfFuel →
  (∀ a, m = Ok a → f a ≠ Raise OutOfFuel) →
  m ≫= f ≠ Raise OutOfFuel.
Proof. destruct m as [a|e]; simpl; intros Hm Hf; [by apply Hf | congruence]. Qed.

Lemma bind_stable {A B} (m m' : outcome A) (f f' : A → outcome B) :
  (m ≠ Raise OutOfFuel → m' = m) →
  (∀ a, m = Ok a → f a ≠ Raise OutOfFuel → f' a = f a) →
  m ≫= f ≠ Raise OutOfFuel →
  m' ≫= f' = m ≫= f.
Proof.
  destruct m as [a|e]; simpl; intros Hm Hf Hne.
  - rewrite Hm by done. simpl. auto.
  - rewrite Hm; [done|]. congruence.
Qed.

Lemma parse_fuel_enough fuel :
  (∀ tokens, 2 * length tokens < fuel →
     parse_fuel fuel tokens ≠ Raise OutOfFuel) ∧
  (∀ tokens val, 2 * length tokens < fuel →
     paren_loop fuel tokens val ≠ Raise OutOfFuel) ∧
  (∀ tokens params, 2 * length tokens + 1 < fuel →
     curly_loop fuel tokens params ≠ Raise OutOfFuel).
Proof.
  induction fuel as [|fuel (IHp & IHl & IHc)]; [repeat split; intros; lia|].
  repeat split.
  - intros [|tok tokens1] Hlen; rewrite parse_fuel_S; [done|].
    simpl in Hlen. destruct (type tok); try done.
    + apply bind_fueled; [apply IHp; lia|].
      intros [tokens val] Hp%parse_consumes%consumes_length.
      apply IHl. lia.
    + destruct tokens1 as [|fn_tok tokens2]; [done|]. simpl in Hlen.
      apply bind_fueled; [apply IHc; lia|]. by intros [tokens params] _.
    + apply bind_fueled; [|done].
      unfold py_float. by repeat case_match.
  - intros [|tok tokens1] val Hlen; rewrite paren_loop_S; [done|].
    simpl in Hlen. case_decide; [done|].
    apply bind_fueled; [apply IHp; lia|].
    intros [tokens r] Hp%parse_consumes%consumes_length.
    apply IHl. lia.
  - intros [|tok tokens1] params Hlen; rewrite curly_loop_S; [done|].
    case_decide; [done|].
    apply bind_fueled; [apply IHp; lia|].
    intros [tokens p] Hp%parse_consumes%consumes_length.
    apply IHc. lia.
Qed.

Lemma parse_fuel_step fuel :
  (∀ tokens, parse_fuel fuel tokens ≠ Raise OutOfFuel →
     parse_fuel (S fuel) tokens = parse_fuel fuel tokens) ∧
  (∀ tokens val, paren_loop fuel tokens val ≠ Raise OutOfFuel →
     paren_loop (S fuel) tokens val = paren_loop fuel tokens val) ∧
  (∀ tokens params, curly_loop fuel tokens params ≠ Raise OutOfFuel →
     curly_loop (S fuel) tokens params = curly_loop fuel tokens params).
Proof.
  induction fuel as [|fuel (IHp & IHl & IHc)]; [by repeat split|].
  repeat split.
  - intros tokens. rewrite (parse_fuel_S (S fuel)), (parse_fuel_S fuel).
    destruct tokens as [|tok tokens1]; [done|].
    destruct (type tok); try done.
    + apply bind_stable; [apply IHp|]. intros [tokens val] _. apply IHl.
    + destruct tokens1 as [|fn_tok tokens2]; [done|].
      apply bind_stable; [apply IHc|]. by intros [tokens params] _.
  - intros tokens val. rewrite (paren_loop_S (S fuel)), (paren_loop_S fuel).
    destruct tokens as [|tok tokens1]; [done|].
    case_decide; [done|].
    apply bind_stable; [apply IHp|]. intros [tokens r] _. apply IHl.
  - intros tokens params. rewrite (curly_loop_S (S fuel)), (curly_loop_S fuel).
    destruct tokens as [|tok tokens1]; [done|].
    case_decide; [done|].
    apply bind_stable; [apply IHp|]. intros [tokens p] _. apply IHc.
Qed.

Lemma parse_fuel_more fuel fuel' tokens :
  2 * length tokens < fuel → fuel ≤ fuel' →
  parse_fuel fuel' tokens = parse_fuel fuel tokens.
Proof.
  intros Hlen Hle. induction Hle as [|fuel' Hle IH]; [done|].
  rewrite <- IH. apply parse_fuel_step. rewrite IH.
  by apply parse_fuel_enough.
Qed.

Lemma paren_loop_more fuel fuel' tokens val :
  2 * length tokens < fuel → fuel ≤ fuel' →
  paren_loop fuel' tokens val = paren_loop fuel tokens val.
Proof.
  intros Hlen Hle. induction Hle as [|fuel' Hle IH]; [done|].
  rewrite <- IH. apply parse_fuel_step. rewrite IH.
  by apply parse_fuel_enough.
Qed.

Lemma curly_loop_more fuel fuel' tokens params :
  2 * length tokens + 1 < fuel → fuel ≤ fuel' →
  curly_loop fuel' tokens params = curly_loop fuel tokens params.
Proof.
  intros Hlen Hle. induction Hle as [|fuel' Hle IH]; [done|].
  rewrite <- IH. apply parse_fuel_step. rewrite IH.
  by apply parse_fuel_enough.
Qed.

(** [parse] never runs out of fuel. *)
Lemma parse_fueled tokens : parse tokens ≠ Raise OutOfFuel.
Proof. apply parse_fuel_enough. unfold parse_bound. lia. Qed.

Lemma parse_fuel_parse fuel tokens :
  parse_bound tokens ≤ fuel → parse_fuel fuel tokens = parse tokens.
Proof.
  intros Hle. apply parse_fuel_more; [|done]. unfold parse_bound. lia.
Qed.

Lemma parse_Ok_consumes tokens rest node :
  parse tokens = Ok (rest, node) → consumes tokens rest.
Proof. apply parse_consumes. Qed.

Lemma paren_loop_rest fuel tokens val :
  parse_bound tokens ≤ fuel → paren_loop fuel tokens val = paren_rest tokens val.
Proof.
  intros Hle. apply paren_loop_more; [|done]. unfold parse_bound. lia.
Qed.

Lemma curly_loop_rest fuel tokens params :
  S (parse_bound tokens) ≤ fuel → curly_loop fuel tokens params = curly_rest tokens params.
Proof.
  intros Hle. apply curly_loop_more; [|done]. unfold parse_bound. lia.
Qed.

Lemma paren_rest_Ok_consumes tokens val rest node :
  paren_rest tokens val = Ok (rest, node) → consumes tokens rest.
Proof. apply parse_consumes. Qed.

Lemma curly_rest_Ok_consumes tokens params rest ps :
  curly_rest tokens params = Ok (rest, ps) → consumes tokens rest.
Proof. apply parse_consumes. Qed.

Lemma parse_bound_cons tok tokens :
  parse_bound (tok :: tokens) = S (S (parse_bound tokens)).
Proof. unfold parse_bound. simpl. lia. Qed.

(** The recursion equations of the source, free of fuel. *)
Lemma parse_unfold tokens :
  parse tokens =
  match tokens with
  | [] => Raise IndexError
  | tok :: tokens1 =>
      match type tok with
      | IDENT => Ok (tokens1, VariableNode (value tok))
      | NUMBER => v ← py_float (value tok); Ok (tokens1, NumberNode v)
      | LPAREN => '(tokens, val) ← parse tokens1; paren_rest tokens val
      | LCURLY =>
          match tokens1 with
          | [] => Raise IndexError
          | fn_tok :: tokens2 =>
              '(tokens, params) ← curly_rest tokens2 [];
              Ok (tokens, CallNode (value fn_tok) params)
          end
      | _ => Raise (SyntaxError ("unexpected token: " +:+ Token_repr tok))
      end
  end.
Proof.
  destruct tokens as [|tok tokens1]; [done|].
  unfold parse at 1. rewrite parse_bound_cons, parse_fuel_S.
  destruct (type tok); try done.
  - rewrite parse_fuel_parse by lia.
    destruct (parse tokens1) as [[tokens val]|e] eqn:Hp; [rewrite !bind_ok_l; cbv beta iota|reflexivity].
    apply parse_Ok_consumes, consumes_length in Hp.
    apply paren_loop_rest. unfold parse_bound in *. lia.
  - destruct tokens1 as [|fn_tok tokens2]; [done|].
    rewrite parse_bound_cons. by rewrite curly_loop_rest by lia.
Qed.

Lemma paren_rest_unfold tokens val :
  paren_rest tokens val =
  match tokens with
  | [] => Raise IndexError
  | tok :: tokens1 =>
      if decide (type tok = RPAREN) then Ok (tokens1, val)
      else
        '(tokens, right_node) ← parse tokens1;
        paren_rest tokens (ExprNode (value tok) val right_node)
  end.
Proof.
  destruct tokens as [|tok tokens1]; [done|].
  unfold paren_rest at 1. rewrite parse_bound_cons, paren_loop_S.
  case_decide; [done|].
  rewrite parse_fuel_parse by lia.
  destruct (parse tokens1) as [[tokens r]|e] eqn:Hp; [rewrite !bind_ok_l; cbv beta iota|reflexivity].
  apply parse_Ok_consumes, consumes_length in Hp.
  apply paren_loop_rest. unfold parse_bound in *. lia.
Qed.

Lemma curly_rest_unfold tokens params :
  curly_rest tokens params =
  match tokens with
  | [] => Raise IndexError
  | tok :: tokens1 =>
      if decide (type tok = RCURLY) then Ok (tokens1, params)
      else
        '(tokens, param) ← parse tokens;
        curly_rest tokens (params ++ [param])
  end.
Proof.
  destruct tokens as [|tok tokens1]; [done|].
  unfold curly_rest at 1. rewrite curly_loop_S.
  case_decide; [done|].
  rewrite parse_fuel_parse by lia.
  destruct (parse (tok :: tokens1)) as [[tokens p]|e] eqn:Hp; [rewrite !bind_ok_l; cbv beta iota|reflexivity].
  apply parse_Ok_consumes, consumes_length in Hp.
  apply curly_loop_rest. unfold parse_bound in *. simpl in *. lia.
Qed.

End ParserFacts.

(** ** Tokenizer: runs of letters and of digits *)

Lemma append_cons a s t : String a s +:+ t = String a (s +:+ t).
Proof. reflexivity. Qed.

Lemma append_assoc_str1 out c s : (out +:+ str1 c) +:+ s = out +:+ String c s.
Proof.
  unfold str1. induction out as [|a out IH]; [done|].
  by rewrite !append_cons, IH.
Qed.

Lemma append_empty_r s : s +:+ "" = s.
Proof. induction s as [|a s IH]; [done | by rewrite append_cons, IH]. Qed.

Lemma span_run_append S code :
  (span_run S code).1 +:+ (span_run S code).2 = code.
Proof.
  induction code as [|c code IH]; simpl; [done|].
  case_bool_decide; simpl; [by rewrite append_cons, IH | done].
Qed.

Lemma span_run_all_in S code : all_in S (span_run S code).1 = true.
Proof.
  induction code as [|c code IH]; simpl; [done|].
  case_bool_decide as Hc; [|done]. unfold all_in in *. simpl.
  by rewrite IH, bool_decide_true.
Qed.

Lemma span_run_stops S code : stops S (span_run S code).2.
Proof.
  induction code as [|c code IH]; simpl; [done|].
  by case_bool_decide.
Qed.

Lemma span_run_length S code :
  String.length (span_run S code).2 ≤ String.length code.
Proof.
  induction code as [|c code IH]; simpl; [done|].
  case_bool_decide; simpl; lia.
Qed.

Lemma span_run_exact S lit code :
  all_in S lit = true → stops S code → span_run S (lit +:+ code) = (lit, code).
Proof.
  intros Hlit Hstop. induction lit as [|c lit IH].
  - destruct code as [|c code]; simpl in *; [done|]. by rewrite bool_decide_false.
  - unfold all_in in *. simpl in Hlit. apply andb_true_iff in Hlit as [Hc Hlit].
    rewrite append_cons. simpl. rewrite Hc, IH; done.
Qed.

Lemma get_ident_loop_cons out c code1 :
  get_ident_loop out (String c code1) =
  if bool_decide (c ∈ letters) then
    match code1 with
    | EmptyString => Ok (out +:+ str1 c, code1)
    | String _ _ => get_ident_loop (out +:+ str1 c) code1
    end
  else Ok (out, String c code1).
Proof. reflexivity. Qed.

Lemma get_ident_loop_span out c code1 :
  get_ident_loop out (String c code1) =
  Ok (out +:+ (span_run letters (String c code1)).1,
      (span_run letters (String c code1)).2).
Proof.
  revert out c. induction code1 as [|c' code2 IH]; intros out c.
  - simpl. case_bool_decide; simpl; by rewrite ?append_empty_r.
  - rewrite get_ident_loop_cons, IH.
    change (span_run letters (String c (String c' code2))) with
      (if bool_decide (c ∈ letters) then
         (String c (span_run letters (String c' code2)).1,
          (span_run letters (String c' code2)).2)
       else (EmptyString, String c (String c' code2))).
    case_bool_decide; cbn [fst snd]; [|by rewrite append_empty_r].
    by rewrite append_assoc_str1.
Qed.

Lemma get_num_loop_cons out c code1 :
  get_num_loop out (String c code1) =
  if bool_decide (c ∈ numbers) then
    match code1 with
    | EmptyString => Ok (out +:+ str1 c, code1)
    | String _ _ => get_num_loop (out +:+ str1 c) code1
    end
  else Ok (out, String c code1).
Proof. reflexivity. Qed.

Lemma get_num_loop_span out c code1 :
  get_num_loop out (String c code1) =
  Ok (out +:+ (span_run numbers (String c code1)).1,
      (span_run numbers (String c code1)).2).
Proof.
  revert out c. induction code1 as [|c' code2 IH]; intros out c.
  - simpl. case_bool_decide; simpl; by rewrite ?append_empty_r.
  - rewrite get_num_loop_cons, IH.
    change (span_run numbers (String c (String c' code2))) with
      (if bool_decide (c ∈ numbers) then
         (String c (span_run numbers (String c' code2)).1,
          (span_run numbers (String c' code2)).2)
       else (EmptyString, String c (String c' code2))).
    case_bool_decide; cbn [fst snd]; [|by rewrite append_empty_r].
    by rewrite append_assoc_str1.
Qed.

Lemma get_ident_span c code1 :
  get_ident (String c code1) =
  Ok ((span_run letters (String c code1)).1, (span_run letters (String c code1)).2).
Proof. unfold get_ident. by rewrite get_ident_loop_span. Qed.

Lemma get_num_span c code1 :
  get_num (String c code1) =
  Ok ((span_run numbers (String c code1)).1, (span_run numbers (String c code1)).2).
Proof. unfold get_num. by rewrite get_num_loop_span. Qed.

(** ** Tokenizer: one iteration, and the whole loop *)

Lemma span_run_in S c code1 :
  c ∈ S →
  span_run S (String c code1) = (String c (span_run S code1).1, (span_run S code1).2).
Proof. intros Hc. simpl. by rewrite bool_decide_true. Qed.

Lemma span_run_first_unknown S code :
  (∀ c, c ∈ S → accepted c = true) →
  first_unknown (span_run S code).2 = first_unknown code.
Proof.
  intros HS. induction code as [|c code IH]; simpl; [done|].
  case_bool_decide as Hc; simpl; [|done]. by rewrite (HS c Hc).
Qed.

Lemma letters_accepted c : c ∈ letters → accepted c = true.
Proof.
  intros Hc. unfold accepted. rewrite (bool_decide_true _ Hc).
  by rewrite orb_true_r.
Qed.

Lemma numbers_accepted c : c ∈ numbers → accepted c = true.
Proof.
  intros Hc. unfold accepted. rewrite (bool_decide_true _ Hc).
  by rewrite orb_true_r.
Qed.

Lemma tokenize_body_space tokens code1 :
  tokenize_body tokens (String " " code1) = Ok (tokens, code1).
Proof. reflexivity. Qed.

Lemma tokenize_body_unknown tokens c code1 :
  accepted c = false →
  tokenize_body tokens (String c code1) =
  Raise (SyntaxError ("unknown character: " +:+ str1 c)).
Proof.
  unfold accepted, tokenize_body. intros Hc.
  repeat (apply orb_false_iff in Hc as [Hc ?]).
  by repeat match goal with H : _ = false |- _ => rewrite H; clear H end.
Qed.

(** An accepted character makes the iteration succeed: it appends at most
    one token, well formed, and leaves a strictly shorter text whose
    characters it has not looked at beyond the run it consumed. *)
Lemma tokenize_body_accepted tokens c code1 :
  accepted c = true →
  ∃ new code',
    tokenize_body tokens (String c code1) = Ok (tokens ++ new, code') ∧
    String.length code' ≤ String.length code1 ∧
    first_unknown code' = first_unknown code1 ∧
    forallb lexeme_ok new = true.
Proof.
  intros Hc. unfold tokenize_body.
  assert (Hsingle : ∀ (ch : ascii) (tok : Token) (other : outcome (list Token * string)),
    lexeme_ok tok = true →
    (Ascii.eqb c ch = false →
     ∃ new code', other = Ok (tokens ++ new, code') ∧
       String.length code' ≤ String.length code1 ∧
       first_unknown code' = first_unknown code1 ∧
       forallb lexeme_ok new = true) →
    ∃ new code',
      (if Ascii.eqb c ch then Ok (tokens ++ [tok], code1) else other) =
      Ok (tokens ++ new, code') ∧
      String.length code' ≤ String.length code1 ∧
      first_unknown code' = first_unknown code1 ∧
      forallb lexeme_ok new = true).
  { intros ch tok other Htok Hother. destruct (Ascii.eqb c ch); [|by apply Hother].
    exists [tok], code1. simpl. by rewrite Htok. }
  do 10 (apply Hsingle; [done|]; intros ?).
  destruct (Ascii.eqb c " ") eqn:?.
  { exists [], code1. rewrite app_nil_r. split_and!; [done | lia | done | done]. }
  case_bool_decide as Hl.
  { rewrite get_ident_span, span_run_in by done. rewrite bind_ok_l.
    eexists [_], _. split_and!; [reflexivity | apply span_run_length | |].
    - apply span_run_first_unknown, letters_accepted.
    - pose proof (span_run_all_in letters (String c code1)) as Hall.
      rewrite span_run_in in Hall by done.
      unfold lexeme_ok. cbn [forallb type value fst] in *. by rewrite Hall. }
  case_bool_decide as Hn.
  { rewrite get_num_span, span_run_in by done. rewrite bind_ok_l.
    eexists [_], _. split_and!; [reflexivity | apply span_run_length | |].
    - apply span_run_first_unknown, numbers_accepted.
    - pose proof (span_run_all_in numbers (String c code1)) as Hall.
      rewrite span_run_in in Hall by done.
      unfold lexeme_ok. cbn [forallb type value fst] in *. by rewrite Hall. }
  unfold accepted in Hc.
  rewrite (bool_decide_false _ Hl), (bool_decide_false _ Hn) in Hc.
  by repeat match goal with H : _ = false |- _ => rewrite H in Hc; clear H end.
Qed.

Lemma tokenize_loop_spec fuel tokens code :
  String.length code ≤ fuel →
  match first_unknown code with
  | Some c =>
      tokenize_loop fuel tokens code =
      Raise (SyntaxError ("unknown character: " +:+ str1 c))
  | None =>
      ∃ new, tokenize_loop fuel tokens code = Ok (tokens ++ new) ∧
             forallb lexeme_ok new = true
  end.
Proof.
  revert tokens code. induction fuel as [|fuel IH]; intros tokens code Hlen.
  { destruct code; simpl in *; [|lia]. exists []. by rewrite app_nil_r. }
  destruct code as [|c code1]; simpl in Hlen.
  { exists []. by rewrite app_nil_r. }
  cbn [first_unknown tokenize_loop].
  destruct (accepted c) eqn:Hc.
  - destruct (tokenize_body_accepted tokens c code1 Hc)
      as (new & code' & -> & Hlen' & <- & Hnew).
    rewrite bind_ok_l. cbv beta iota.
    specialize (IH (tokens ++ new) code' ltac:(lia)).
    destruct (first_unknown code'); [done|].
    destruct IH as (new' & -> & Hnew'). exists (new ++ new').
    by rewrite app_assoc, forallb_app, Hnew, Hnew'.
  - by rewrite tokenize_body_unknown.
Qed.

(** [tokenize] never runs out of fuel. *)
Lemma tokenize_fueled code : tokenize code ≠ Raise OutOfFuel.
Proof.
  unfold tokenize.
  pose proof (tokenize_loop_spec (String.length code) [] code ltac:(done)) as H.
  destruct (first_unknown code); [by rewrite H|].
  by destruct H as (new & -> & _).
Qed.

Lemma tokenize_lexemes code tokens :
  tokenize code = Ok tokens → forallb lexeme_ok tokens = true.
Proof.
  unfold tokenize.
  pose proof (tokenize_loop_spec (String.length code) [] code ltac:(done)) as H.
  destruct (first_unknown code); [by rewrite H|].
  destruct H as (new & -> & Hnew). by intros [= <-].
Qed.

Lemma tokenize_first_unknown code c :
  first_unknown code = Some c →
  tokenize code = Raise (SyntaxError ("unknown character: " +:+ str1 c)).
Proof.
  unfold tokenize. intros Hc.
  pose proof (tokenize_loop_spec (String.length code) [] code ltac:(done)) as H.
  by rewrite Hc in H.
Qed.

Lemma tokenize_all_accepted code :
  first_unknown code = None → ∃ tokens, tokenize code = Ok tokens.
Proof.
  unfold tokenize. intros Hc.
  pose proof (tokenize_loop_spec (String.length code) [] code ltac:(done)) as H.
  rewrite Hc in H. destruct H as (new & -> & _). eauto.
Qed.

Lemma first_unknown_app pre c post :
  forallb accepted (list_ascii_of_string pre) = true →
  accepted c = false →
  first_unknown (pre +:+ String c post) = Some c.
Proof.
  intros Hpre Hc. induction pre as [|a pre IH].
  - simpl. by rewrite Hc.
  - simpl in Hpre. apply andb_true_iff in Hpre as [Ha Hpre].
    rewrite append_cons. simpl. rewrite Ha. by apply IH.
Qed.

Lemma accepted_char_class c : accepted c = char_class c.
Proof. destruct c as [[] [] [] [] [] [] [] []]; vm_compute; reflexivity. Qed.

Lemma skips_only_space c : skips c → c = " "%char.
Proof.
  intros Hskip. specialize (Hskip [] EmptyString).
  destruct (accepted c) eqn:Hc; [|by rewrite tokenize_body_unknown in Hskip].
  revert Hskip. unfold tokenize_body.
  do 10 (destruct (Ascii.eqb c _); [discriminate|]).
  destruct (Ascii.eqb_spec c " "); [done|].
  case_bool_decide; [by rewrite get_ident_span, bind_ok_l|].
  case_bool_decide; [by rewrite get_num_span, bind_ok_l|].
  discriminate.
Qed.

(** ** Numeric literals *)

Lemma count_dots_length s : count_dots s ≤ String.length s.
Proof. induction s as [|c s IH]; simpl; [done|]. case_match; lia. Qed.

Lemma scan_decimal_None s mant ndigits frac :
  scan_decimal s mant ndigits frac = None ↔
  2 ≤ count_dots s + (if frac is Some _ then 1 else 0) ∨
  ndigits + (String.length s - count_dots s) = 0.
Proof.
  revert mant ndigits frac.
  induction s as [|c s IH]; intros mant ndigits frac; simpl.
  - destruct ndigits, frac; simpl; split; try done; try lia; auto.
  - pose proof (count_dots_length s). destruct (Ascii.eqb c ".").
    + destruct frac; [split; [lia | done]|]. rewrite IH. lia.
    + rewrite IH. destruct frac; simpl; lia.
Qed.

Section LiteralFacts.
Context `{RT : PyRuntime}.

Lemma py_float_cases literal :
  (∃ v, py_float literal = Ok v) ∨ py_float literal = Raise (FloatValueError literal).
Proof. unfold py_float. repeat case_match; eauto. Qed.

Lemma py_float_malformed literal :
  is_numeric literal = true → malformed literal →
  py_float literal = Raise (FloatValueError literal).
Proof.
  intros Hnum Hbad. unfold py_float. rewrite Hnum.
  assert (scan_decimal literal 0 0 None = None) as ->; [|done].
  apply scan_decimal_None. unfold malformed in Hbad.
  pose proof (count_dots_length literal). lia.
Qed.

Lemma py_float_wellformed literal :
  is_numeric literal = true → ¬ malformed literal →
  ∃ v, py_float literal = Ok v.
Proof.
  intros Hnum Hgood. unfold py_float. rewrite Hnum.
  destruct (scan_decimal literal 0 0 None) as [[mant frac]|] eqn:Hscan; [eauto|].
  apply scan_decimal_None in Hscan. unfold malformed in Hgood.
  pose proof (count_dots_length literal). lia.
Qed.

End LiteralFacts.

Lemma numbers_chain c :
  bool_decide (c ∈ numbers) = true →
  bool_decide (c ∈ letters) = false ∧
  Ascii.eqb c " " = false ∧
  existsb (Ascii.eqb c) (list_ascii_of_string "(){}+-*/=^") = false.
Proof. destruct c as [[] [] [] [] [] [] [] []]; vm_compute; done. Qed.

Lemma tokenize_body_digit tokens c code1 :
  c ∈ numbers →
  tokenize_body tokens (String c code1) =
  Ok (tokens ++ [mkToken NUMBER (span_run numbers (String c code1)).1],
      (span_run numbers (String c code1)).2).
Proof.
  intros Hc. pose proof (bool_decide_eq_true_2 _ Hc) as Hb.
  destruct (numbers_chain c Hb) as (Hl & Hs & Hx).
  simpl in Hx. repeat (apply orb_false_iff in Hx as [? Hx]).
  unfold tokenize_body.
  repeat match goal with H : Ascii.eqb _ _ = false |- _ => rewrite H; clear H end.
  by rewrite Hl, Hb, get_num_span, bind_ok_l.
Qed.

(** A digit/dot run in front of the text becomes one NUMBER token whose
    literal is the run itself. *)
Lemma tokenize_body_number tokens literal code :
  literal ≠ EmptyString → is_numeric literal = true → stops numbers code →
  tokenize_body tokens (literal +:+ code) =
  Ok (tokens ++ [mkToken NUMBER literal], code).
Proof.
  intros Hne Hnum Hstop. destruct literal as [|c lit]; [done|].
  assert (c ∈ numbers) as Hc.
  { unfold is_numeric in Hnum. simpl in Hnum.
    by apply andb_true_iff in Hnum as [?%bool_decide_eq_true _]. }
  rewrite append_cons, tokenize_body_digit by done.
  rewrite <- append_cons. by rewrite (span_run_exact numbers (String c lit) code).
Qed.

(** ** The function tables *)

Section TableFacts.
Context `{RT : PyRuntime}.

Lemma noannotate_lookup name fn :
  main_noannotate.functions !! name = Some fn →
  (name = "sqrt" ∧ fn = sqrt_entry) ∨ (name = "sin" ∧ fn = sin_entry) ∨
  (name = "cos" ∧ fn = cos_entry) ∨ (name = "tan" ∧ fn = tan_entry) ∨
  (name = "fact" ∧ fn = fact_entry).
Proof.
  unfold main_noannotate.functions. cbn [list_to_map foldr fst snd curry].
  rewrite !lookup_insert_Some, lookup_empty.
  intros [[<- <-]|[_ [[<- <-]|[_ [[<- <-]|[_ [[<- <-]|[_ [[<- <-]|[_ ?]]]]]]]]]];
    [tauto .. | done].
Qed.

Lemma main_lookup name fn :
  main.functions !! name = Some fn → name = "sqrt" ∧ fn = sqrt_entry.
Proof.
  unfold main.functions. cbn [list_to_map foldr fst snd curry].
  rewrite !lookup_insert_Some, lookup_empty. by intros [[<- <-]|[_ ?]].
Qed.

(* the table of main.py is the sqrt entry of the other table *)
Lemma main_table_sub : main.functions ⊆ main_noannotate.functions.
Proof.
  apply map_subseteq_spec. intros name fn [-> ->]%main_lookup. reflexivity.
Qed.

Lemma program_table_lookup functions name fn :
  program_table functions → functions !! name = Some fn →
  main_noannotate.functions !! name = Some fn.
Proof.
  intros [-> | ->]; [|done]. intros [-> ->]%main_lookup. reflexivity.
Qed.

Lemma entry_no_argument name fn :
  main_noannotate.functions !! name = Some fn → fn [] = Raise IndexError.
Proof. intros H%noannotate_lookup. by destruct_or!; destruct_and!; subst. Qed.

Lemma entry_first_only name fn a rest :
  main_noannotate.functions !! name = Some fn → fn (a :: rest) = fn [a].
Proof. intros H%noannotate_lookup. by destruct_or!; destruct_and!; subst. Qed.

Lemma lib_call_no_syntax r msg : lib_call r ≠ Raise (SyntaxError msg).
Proof. by destruct r as [[]|]. Qed.

Lemma entry_no_syntax name fn args msg :
  main_noannotate.functions !! name = Some fn → fn args ≠ Raise (SyntaxError msg).
Proof.
  intros H%noannotate_lookup.
  destruct args as [|a rest]; destruct_or!; destruct_and!; subst; try done.
  - unfold sqrt_entry, math_sqrt. simpl. by case_match.
  - apply lib_call_no_syntax.
  - apply lib_call_no_syntax.
  - apply lib_call_no_syntax.
  - unfold fact_entry. simpl. by destruct (math_gamma a) as [[]|].
Qed.

(** ** Evaluator *)

Lemma eval_params_Ok (eval : Node → outcome float) params :
  Forall (λ p, ∃ a, eval p = Ok a) params →
  ∃ args, eval_params eval params = Ok args ∧ length args = length params.
Proof.
  induction 1 as [|p ps [a Ha] _ (args & IH & Hlen)]; simpl; [by exists []|].
  rewrite Ha, IH. exists (a :: args). simpl. by rewrite Hlen.
Qed.

Lemma eval_params_Raise (eval : Node → outcome float) params e :
  eval_params eval params = Raise e → ∃ p, p ∈ params ∧ eval p = Raise e.
Proof.
  induction params as [|p ps IH]; simpl; [done|].
  destruct (eval p) as [a|e'] eqn:Hp; simpl.
  - destruct (eval_params eval ps) as [args|e'']; simpl; [done|].
    intros [= ->]. destruct IH as (q & Hq & Hqe); [done|].
    exists q. split; [by right | done].
  - intros [= ->]. exists p. split; [by left | done].
Qed.

Lemma eval_node_expr functions op left_node right_node variables :
  eval_node functions (ExprNode op left_node right_node) variables =
  (left_val ← eval_node functions left_node variables;
   right_val ← eval_node functions right_node variables;
   if String.eqb op "+" then Ok (left_val + right_val)%float
   else if String.eqb op "-" then Ok (left_val - right_val)%float
   else if String.eqb op "*" then Ok (left_val * right_val)%float
   else if String.eqb op "/" then
     if (right_val =? 0)%float then Raise ZeroDivisionError
     else Ok (left_val / right_val)%float
   else if String.eqb op "^" then lib_call (float_pow left_val right_val)
   else Raise (SyntaxError ("unknown operator: " +:+ op))).
Proof. reflexivity. Qed.

Lemma eval_node_call functions fn_name params variables :
  eval_node functions (CallNode fn_name params) variables =
  match functions !! fn_name with
  | Some fn =>
      args ← eval_params (λ param, eval_node functions param variables) params;
      fn args
  | None => Raise (NameError ("unknown function: " +:+ fn_name))
  end.
Proof. reflexivity. Qed.

(** The unknown-operator SyntaxError comes from an EXPR node of the tree
    whose operator is none of the five. *)
Lemma eval_syntax_error functions node variables msg :
  program_table functions →
  eval_node functions node variables = Raise (SyntaxError msg) →
  ∃ op, op ∈ node_ops node ∧ msg = ("unknown operator: " +:+ op) ∧
        op ∉ known_operators.
Proof.
  intros Htable. induction node as [v|name|op l r IHl IHr|fn_name params IH]
    using Node_nested_ind.
  - done.
  - simpl. by case_match.
  - rewrite eval_node_expr. simpl node_ops.
    intros [Hl|(left_val & _ & [Hr|(right_val & _ & Hop)]%bind_Raise)]%bind_Raise.
    + destruct (IHl Hl) as (op' & ? & ? & ?). exists op'.
      rewrite elem_of_cons, elem_of_app. auto.
    + destruct (IHr Hr) as (op' & ? & ? & ?). exists op'.
      rewrite elem_of_cons, elem_of_app. auto.
    + exists op. rewrite elem_of_cons. revert Hop.
      destruct (String.eqb_spec op "+") as [->|?]; [done|].
      destruct (String.eqb_spec op "-") as [->|?]; [done|].
      destruct (String.eqb_spec op "*") as [->|?]; [done|].
      destruct (String.eqb_spec op "/") as [->|?]; [by case_match|].
      destruct (String.eqb_spec op "^") as [->|?];
        [intros Hpow; by apply lib_call_no_syntax in Hpow|].
      intros [= <-]. split_and!; [by left | done |].
      unfold known_operators. rewrite !elem_of_cons, elem_of_nil. tauto.
  - rewrite eval_node_call. simpl node_ops.
    destruct (functions !! fn_name) as [fn|] eqn:Hfn; [|discriminate].
    intros [Hargs|(args & _ & Hcall)]%bind_Raise.
    + apply eval_params_Raise in Hargs as (p & Hp & Hpe).
      rewrite Forall_forall in IH.
      destruct (IH p Hp Hpe) as (op' & ? & ? & ?). exists op'.
      split; [|done]. apply elem_of_call_ops. eauto.
    + by eapply entry_no_syntax in Hcall; [|eapply program_table_lookup].
Qed.

End TableFacts.

(** ** The operators of a parsed tree are literals of its tokens *)

Lemma literal_of_head tok tokens : literal_of (tok :: tokens) (value tok).
Proof. exists tok. split; [by left | done]. Qed.

Lemma literal_of_cons tok tokens op :
  literal_of tokens op → literal_of (tok :: tokens) op.
Proof. intros (t & Ht & <-). exists t. split; [by right | done]. Qed.

Lemma literal_of_consumes tokens rest op :
  consumes tokens rest → literal_of rest op → literal_of tokens op.
Proof.
  intros (c & _ & ->) (t & Ht & <-). exists t. split; [|done].
  apply elem_of_app. by right.
Qed.

Section ParsedOperators.
Context `{RT : PyRuntime}.

Lemma parse_ops fuel :
  (∀ tokens rest node,
     parse_fuel fuel tokens = Ok (rest, node) →
     ∀ op, op ∈ node_ops node → literal_of tokens op) ∧
  (∀ tokens val rest node,
     paren_loop fuel tokens val = Ok (rest, node) →
     ∀ op, op ∈ node_ops node → op ∈ node_ops val ∨ literal_of tokens op) ∧
  (∀ tokens params rest ps,
     curly_loop fuel tokens params = Ok (rest, ps) →
     ∀ op, op ∈ concat (map node_ops ps) →
           op ∈ concat (map node_ops params) ∨ literal_of tokens op).
Proof.
  induction fuel as [|fuel (IHp & IHl & IHc)]; [by repeat split|].
  repeat split.
  - intros [|tok tokens1] rest node; rewrite parse_fuel_S; [done|].
    destruct (type tok); try done.
    + intros ([tokens val] & H1 & H2)%bind_Ok op Hop.
      apply literal_of_cons.
      destruct (IHl _ _ _ _ H2 op Hop) as [Hval|Hlit]; [by eapply IHp|].
      eapply literal_of_consumes; [|done]. by eapply parse_fuel_consumes.
    + destruct tokens1 as [|fn_tok tokens2]; [done|].
      intros ([tokens params] & H1 & [= <- <-])%bind_Ok op Hop.
      destruct (IHc _ _ _ _ H1 op Hop) as [Hnil|Hlit]; [by inversion Hnil|].
      by do 2 apply literal_of_cons.
    + by intros (v & _ & [= <- <-])%bind_Ok op Hop%elem_of_nil.
    + by intros [= <- <-] op Hop%elem_of_nil.
  - intros [|tok tokens1] val rest node; rewrite paren_loop_S; [done|].
    case_decide.
    + intros [= <- <-] op Hop. by left.
    + intros ([tokens r] & H1 & H2)%bind_Ok op Hop.
      destruct (IHl _ _ _ _ H2 op Hop) as [Hexpr|Hlit].
      * simpl in Hexpr. apply elem_of_cons in Hexpr as [->|Hexpr];
          [right; apply literal_of_head|].
        apply elem_of_app in Hexpr as [Hval|Hr]; [by left|].
        right. apply literal_of_cons. by eapply IHp.
      * right. apply literal_of_cons.
        eapply literal_of_consumes; [|done]. by eapply parse_fuel_consumes.
  - intros [|tok tokens1] params rest ps; rewrite curly_loop_S; [done|].
    case_decide.
    + intros [= <- <-] op Hop. by left.
    + intros ([tokens p] & H1 & H2)%bind_Ok op Hop.
      destruct (IHc _ _ _ _ H2 op Hop) as [Hps|Hlit].
      * apply elem_of_call_ops in Hps as (q & Hq & Hopq).
        apply elem_of_app in Hq as [Hq|Hq%list_elem_of_singleton].
        -- left. apply elem_of_call_ops. eauto.
        -- subst q. right. by eapply IHp.
      * right. eapply literal_of_consumes; [|done]. by eapply parse_fuel_consumes.
Qed.

Lemma parse_Ok_ops tokens rest node op :
  parse tokens = Ok (rest, node) → op ∈ node_ops node → literal_of tokens op.
Proof. intros Hp. by eapply parse_ops. Qed.

End ParsedOperators.

Lemma tokenize_operator_literal code tokens tok :
  tokenize code = Ok tokens → tok ∈ tokens → type tok = OPERATOR →
  value tok ∈ operator_literals.
Proof.
  intros Hall%tokenize_lexemes Htok Hty.
  rewrite forallb_forall in Hall. apply list_elem_of_In, Hall in Htok.
  unfold lexeme_ok in Htok. rewrite Hty in Htok. by apply bool_decide_eq_true in Htok.
Qed.

(** ** A parenthesized group folds to the left *)

Section GroupFold.
Context `{RT : PyRuntime}.

Lemma paren_rest_chain items val rp rest :
  type rp = RPAREN →
  Forall operand items →
  paren_rest (group_tail items ++ rp :: rest) val = Ok (rest, left_chain val items).
Proof.
  intros Hrp Hitems. revert val.
  induction Hitems as [|item items [Hop Hparses] _ IH]; intros val.
  - cbn [group_tail app]. rewrite paren_rest_unfold. by rewrite decide_True.
  - cbn [group_tail]. rewrite <- app_comm_cons, paren_rest_unfold.
    rewrite decide_False by done.
    rewrite <- app_assoc, Hparses, bind_ok_l. cbv beta iota. apply IH.
Qed.

Lemma parse_group lp first node items rp rest :
  type lp = LPAREN → type rp = RPAREN →
  parses first node → Forall operand items →
  parse (lp :: first ++ group_tail items ++ rp :: rest)
  = Ok (rest, left_chain node items).
Proof.
  intros Hlp Hrp Hfirst Hitems.
  rewrite parse_unfold, Hlp, Hfirst, bind_ok_l. cbv beta iota.
  by apply paren_rest_chain.
Qed.

Lemma ident_token_parses name : parses [mkToken IDENT name] (VariableNode name).
Proof. intros rest. cbn [app]. by rewrite parse_unfold. Qed.

(* a group is an operand in turn *)
Lemma group_parses lp first node items rp :
  type lp = LPAREN → type rp = RPAREN →
  parses first node → Forall operand items →
  parses (lp :: first ++ group_tail items ++ [rp]) (left_chain node items).
Proof.
  intros Hlp Hrp Hfirst Hitems rest.
  rewrite <- app_comm_cons, <- !app_assoc. cbn [app]. by apply parse_group.
Qed.

Lemma number_token_parses literal v :
  py_float literal = Ok v → parses [mkToken NUMBER literal] (NumberNode v).
Proof.
  intros Hv rest. cbn [app]. rewrite parse_unfold. cbn [type value].
  by rewrite Hv.
Qed.

(** ** Calls, and every successful parse is one of these shapes *)

Lemma parses_head tokens node :
  parses tokens node →
  ∃ tok tokens1, tokens = tok :: tokens1 ∧ type tok ≠ RCURLY ∧ type tok ≠ RPAREN.
Proof.
  intros Hp. specialize (Hp []). rewrite app_nil_r, parse_unfold in Hp.
  destruct tokens as [|tok tokens1]; [done|].
  exists tok, tokens1. split_and!; [done | |]; intros Hty; by rewrite Hty in Hp.
Qed.

Lemma curly_rest_args args params rc rest :
  type rc = RCURLY →
  Forall argument args →
  curly_rest (args_tokens args ++ rc :: rest) params
  = Ok (rest, params ++ map snd args).
Proof.
  intros Hrc Hargs. revert params.
  induction Hargs as [|[c p] args Harg _ IH]; intros params.
  - cbn [args_tokens app map]. rewrite curly_rest_unfold, decide_True by done.
    by rewrite app_nil_r.
  - cbn [args_tokens fst snd map]. unfold argument in Harg. cbn [fst snd] in Harg.
    destruct (parses_head _ _ Harg) as (tok & c' & -> & Hty & _).
    rewrite <- app_assoc, <- app_comm_cons, curly_rest_unfold.
    rewrite decide_False by done.
    rewrite app_comm_cons, Harg, bind_ok_l. cbv beta iota.
    rewrite IH. by rewrite <- app_assoc.
Qed.

Lemma parse_call lc fn_tok args rc rest :
  type lc = LCURLY → type rc = RCURLY →
  Forall argument args →
  parse (lc :: fn_tok :: args_tokens args ++ rc :: rest)
  = Ok (rest, CallNode (value fn_tok) (map snd args)).
Proof.
  intros Hlc Hrc Hargs.
  rewrite parse_unfold, Hlc, curly_rest_args by done. reflexivity.
Qed.

Lemma call_parses lc fn_tok args rc :
  type lc = LCURLY → type rc = RCURLY →
  Forall argument args →
  parses (lc :: fn_tok :: args_tokens args ++ [rc])
         (CallNode (value fn_tok) (map snd args)).
Proof.
  intros Hlc Hrc Hargs rest.
  rewrite <- !app_comm_cons, <- !app_assoc. cbn [app]. by apply parse_call.
Qed.

Lemma parse_shapes fuel :
  (∀ tokens rest node,
     parse_fuel fuel tokens = Ok (rest, node) →
     ∃ consumed, tokens = consumed ++ rest ∧ parses consumed node) ∧
  (∀ tokens val rest node,
     paren_loop fuel tokens val = Ok (rest, node) →
     ∃ items rp,
       tokens = group_tail items ++ rp :: rest ∧ type rp = RPAREN ∧
       Forall operand items ∧ node = left_chain val items) ∧
  (∀ tokens params rest ps,
     curly_loop fuel tokens params = Ok (rest, ps) →
     ∃ args rc,
       tokens = args_tokens args ++ rc :: rest ∧ type rc = RCURLY ∧
       Forall argument args ∧ ps = params ++ map snd args).
Proof.
  induction fuel as [|fuel (IHp & IHl & IHc)]; [by repeat split|].
  repeat split.
  - intros [|tok tokens1] rest node; rewrite parse_fuel_S; [done|].
    destruct (type tok) eqn:Hty; try done.
    + intros ([tokens val] & H1 & H2)%bind_Ok.
      destruct (IHp _ _ _ H1) as (c1 & -> & Hc1).
      destruct (IHl _ _ _ _ H2) as (items & rp & -> & Hrp & Hitems & ->).
      exists (tok :: c1 ++ group_tail items ++ [rp]). split.
      * rewrite <- !app_comm_cons, <- !app_assoc. reflexivity.
      * by apply group_parses.
    + destruct tokens1 as [|fn_tok tokens2]; [done|].
      intros ([tokens params] & H1 & [= <- <-])%bind_Ok.
      destruct (IHc _ _ _ _ H1) as (args & rc & -> & Hrc & Hargs & ->).
      exists (tok :: fn_tok :: args_tokens args ++ [rc]). split.
      * rewrite <- !app_comm_cons, <- !app_assoc. reflexivity.
      * by apply call_parses.
    + intros (v & Hv & [= <- <-])%bind_Ok. exists [tok]. split; [done|].
      intros rest. cbn [app]. by rewrite parse_unfold, Hty, Hv.
    + intros [= <- <-]. exists [tok]. split; [done|].
      intros rest. cbn [app]. by rewrite parse_unfold, Hty.
  - intros [|tok tokens1] val rest node; rewrite paren_loop_S; [done|].
    case_decide as Hty.
    + intros [= <- <-]. by exists [], tok.
    + intros ([tokens r] & H1 & H2)%bind_Ok.
      destruct (IHp _ _ _ H1) as (c & -> & Hc).
      destruct (IHl _ _ _ _ H2) as (items & rp & -> & Hrp & Hitems & ->).
      exists (mkItem tok c r :: items), rp. split_and!; [|done| |done].
      * cbn [group_tail item_op item_tokens]. rewrite <- app_comm_cons.
        by rewrite <- app_assoc.
      * by constructor.
  - intros [|tok tokens1] params rest ps; rewrite curly_loop_S; [done|].
    case_decide as Hty.
    + intros [= <- <-]. exists [], tok. by rewrite app_nil_r.
    + intros ([tokens p] & H1 & H2)%bind_Ok.
      destruct (IHp _ _ _ H1) as (c & Hc & Hcp).
      destruct (IHc _ _ _ _ H2) as (args & rc & -> & Hrc & Hargs & ->).
      exists ((c, p) :: args), rc. split_and!; [|done| |].
      * cbn [args_tokens fst]. by rewrite <- app_assoc.
      * by constructor.
      * cbn [map snd]. by rewrite <- app_assoc.
Qed.

(** Every group that parses is a first operand followed by operator
    positions, and its tree is their left chain. *)
Lemma parse_group_inv lp tokens rest node :
  type lp = LPAREN →
  parse (lp :: tokens) = Ok (rest, node) →
  ∃ first first_node items rp,
    tokens = first ++ group_tail items ++ rp :: rest ∧ type rp = RPAREN ∧
    parses first first_node ∧ Forall operand items ∧
    node = left_chain first_node items.
Proof.
  intros Hlp. rewrite parse_unfold, Hlp.
  intros ([tokens' val] & H1 & H2)%bind_Ok.
  destruct (proj1 (parse_shapes _) _ _ _ H1) as (first & -> & Hfirst).
  destruct (proj1 (proj2 (parse_shapes _)) _ _ _ _ H2)
    as (items & rp & -> & Hrp & Hitems & ->).
  by exists first, val, items, rp.
Qed.

End GroupFold.

(** * The claims *)

Section Claims.
Context `{RT : PyRuntime}.

(** C10: whenever [parse] succeeds on a non-empty token sequence, the
    remaining tokens it returns are a strict suffix of its input: the input
    is a non-empty consumed prefix followed by the remainder, unchanged. *)
Theorem parse_strict_suffix tokens rest node :
  tokens ≠ [] →
  parse tokens = Ok (rest, node) →
  (∃ consumed, consumed ≠ [] ∧ tokens = consumed ++ rest) ∧
  length rest < length tokens.
Proof.
  intros _ Hp. apply parse_Ok_consumes in Hp.
  split; [exact Hp | by apply consumes_length].
Qed.

(** C9: the tokens of "(1+)" make [parse] raise the SyntaxError of an
    unexpected token (the closing parenthesis met where the right operand
    is expected), not an IndexError. *)
Theorem parse_dangling_operator :
  ∃ tokens,
    tokenize "(1+)" = Ok tokens ∧
    parse tokens =
      Raise (SyntaxError "unexpected token: Token(TokenType.RPAREN, ))") ∧
    parse tokens ≠ Raise IndexError ∧
    main_noannotate.run "(1+)" ∅ =
      Raise (SyntaxError "unexpected token: Token(TokenType.RPAREN, ))").
Proof.
  eexists. split; [vm_compute; reflexivity|].
  split_and!; [vm_compute; reflexivity | vm_compute; discriminate
              | vm_compute; reflexivity].
Qed.

(** C4: an EXPR node with operator "/" whose operands evaluate and whose
    divisor is zero raises ZeroDivisionError and returns no value; so does
    the pipeline on "(1 / 0)" under empty bindings. *)
Theorem division_by_zero :
  (∀ functions left_node right_node variables left_val right_val,
     eval_node functions left_node variables = Ok left_val →
     eval_node functions right_node variables = Ok right_val →
     (right_val =? 0)%float = true →
     eval_node functions (ExprNode "/" left_node right_node) variables
       = Raise ZeroDivisionError ∧
     ∀ v, eval_node functions (ExprNode "/" left_node right_node) variables ≠ Ok v) ∧
  main.run "(1 / 0)" ∅ = Raise ZeroDivisionError ∧
  main_noannotate.run "(1 / 0)" ∅ = Raise ZeroDivisionError.
Proof.
  split; [|split; vm_compute; reflexivity].
  intros functions left_node right_node variables left_val right_val Hl Hr Hz.
  assert (eval_node functions (ExprNode "/" left_node right_node) variables
          = Raise ZeroDivisionError) as ->; [|done].
  cbn [eval_node]. rewrite Hl, Hr, !bind_ok_l. simpl. by rewrite Hz.
Qed.

(** C6, as amended: the tokenizer skips the space character (and only it)
    without producing a token; a character that is not one of the ten
    one-character tokens, the space, a lower-case ASCII letter, a digit or
    the dot makes the iteration that meets it raise the SyntaxError of an
    unknown character, and [tokenize] raises it for the first such character
    of the text, returning no token list. *)
Theorem tokenize_space_and_unknown :
  (skips " " ∧ ∀ c, skips c → c = " "%char) ∧
  (∀ c, accepted c = char_class c) ∧
  (∀ code, tokenize (String " " code) = tokenize code) ∧
  (∀ tokens c code,
     accepted c = false →
     tokenize_body tokens (String c code) =
     Raise (SyntaxError ("unknown character: " +:+ str1 c))) ∧
  (∀ pre c post,
     forallb accepted (list_ascii_of_string pre) = true →
     accepted c = false →
     tokenize (pre +:+ String c post) =
     Raise (SyntaxError ("unknown character: " +:+ str1 c))).
Proof.
  split_and!.
  - intros tokens code. apply tokenize_body_space.
  - apply skips_only_space.
  - apply accepted_char_class.
  - reflexivity.
  - intros tokens c code. apply tokenize_body_unknown.
  - intros pre c post Hpre Hc.
    by apply tokenize_first_unknown, first_unknown_app.
Qed.

(** C8: a NUMBER token whose digit/dot literal has two dots or more, or no
    digit, makes [parse] raise the ValueError of [float] for that literal;
    the tokenizer stores a digit/dot run as the literal of one NUMBER token
    without checking it, as for "1.2.3" and ".". *)
Theorem parse_malformed_number :
  (∀ tok rest,
     type tok = NUMBER → is_numeric (value tok) = true → malformed (value tok) →
     parse (tok :: rest) = Raise (FloatValueError (value tok))) ∧
  (∀ tok rest,
     type tok = NUMBER → (∀ v, py_float (value tok) ≠ Ok v) →
     parse (tok :: rest) = Raise (FloatValueError (value tok))) ∧
  (∀ tokens literal code,
     literal ≠ EmptyString → is_numeric literal = true → stops numbers code →
     tokenize_body tokens (literal +:+ code) =
     Ok (tokens ++ [mkToken NUMBER literal], code)) ∧
  (tokenize "1.2.3" = Ok [mkToken NUMBER "1.2.3"] ∧
   parse [mkToken NUMBER "1.2.3"] = Raise (FloatValueError "1.2.3")) ∧
  (tokenize "." = Ok [mkToken NUMBER "."] ∧
   parse [mkToken NUMBER "."] = Raise (FloatValueError ".")).
Proof.
  split_and!; try (vm_compute; reflexivity).
  - intros tok rest Hty Hnum Hbad.
    rewrite parse_unfold, Hty, py_float_malformed by done. reflexivity.
  - intros tok rest Hty Hbad. rewrite parse_unfold, Hty.
    destruct (py_float_cases (value tok)) as [[v Hv]| ->]; [|reflexivity].
    by destruct (Hbad v).
  - apply tokenize_body_number.
Qed.

(** C2, as amended: on the tree parsed from the tokens of a text,
    evaluation raises the unknown-operator SyntaxError only for the literal
    of a token of that text that is none of + - * / ^ (the parser took it
    in operator position): the "=" operator token, or a token that is not an
    OPERATOR at all. *)
Theorem unknown_operator_origin functions text tokens rest ast variables msg :
  program_table functions →
  tokenize text = Ok tokens →
  parse tokens = Ok (rest, ast) →
  eval_node functions ast variables = Raise (SyntaxError msg) →
  ∃ tok, tok ∈ tokens ∧
         msg = ("unknown operator: " +:+ value tok) ∧
         (value tok ∉ known_operators) ∧
         (type tok = OPERATOR → value tok = "=").
Proof.
  intros Htable Htok Hparse Heval.
  destruct (eval_syntax_error _ _ _ _ Htable Heval) as (op & Hop & -> & Hunknown).
  destruct (parse_Ok_ops _ _ _ _ Hparse Hop) as (tok & Hin & <-).
  exists tok. split_and!; [done..|].
  intros Hty. pose proof (tokenize_operator_literal _ _ _ Htok Hin Hty) as Hlit.
  unfold operator_literals, known_operators in *.
  rewrite !elem_of_cons, elem_of_nil in Hlit.
  rewrite !elem_of_cons, elem_of_nil in Hunknown. tauto.
Qed.

(** C3, as amended: for every name of the function table, evaluating a
    CALL node with no argument fails with the IndexError of the
    out-of-range access [inp[0]]. *)
Theorem call_without_argument functions fn_name variables :
  program_table functions →
  fn_name ∈ dom functions →
  eval_node functions (CallNode fn_name []) variables = Raise IndexError.
Proof.
  intros Htable [fn Hfn]%elem_of_dom. rewrite eval_node_call, Hfn. simpl.
  eapply entry_no_argument, program_table_lookup; done.
Qed.


(** C7: a CALL node whose first argument evaluates to [a1] and whose further
    arguments all evaluate gives what the same call with the first argument
    alone gives, namely the table entry applied to [[a1]]. *)
Theorem call_extra_arguments_ignored functions fn_name p1 ps variables a1 :
  program_table functions →
  eval_node functions p1 variables = Ok a1 →
  Forall (λ p, ∃ a, eval_node functions p variables = Ok a) ps →
  eval_node functions (CallNode fn_name (p1 :: ps)) variables =
  eval_node functions (CallNode fn_name [p1]) variables ∧
  ∀ fn, functions !! fn_name = Some fn →
        eval_node functions (CallNode fn_name (p1 :: ps)) variables = fn [a1].
Proof.
  intros Htable H1 Hps. rewrite !eval_node_call.
  apply eval_params_Ok in Hps as (args & Hargs & _).
  destruct (functions !! fn_name) as [fn|] eqn:Hfn; [|by split].
  simpl. rewrite H1, Hargs. simpl.
  assert (fn (a1 :: args) = fn [a1]) as ->; [|by split; [|intros ? [= <-]]].
  eapply entry_first_only, program_table_lookup; done.
Qed.

(** C1: "(2 + 3 * 4)" evaluates to 20 under empty bindings, not to 14; its
    tree is (2 + 3) * 4.  In general the tokens of a group, a first operand
    followed by any number of operator tokens each with its operand, parse
    to the chain of EXPR nodes that leans to the left, whatever the
    operators are; and every group that parses is of this form. *)
Theorem group_folds_left :
  (main.run "(2 + 3 * 4)" ∅ = Ok 20%float ∧
   main.run "(2 + 3 * 4)" ∅ ≠ Ok 14%float ∧
   main_noannotate.run "(2 + 3 * 4)" ∅ = Ok 20%float) ∧
  (∃ tokens,
     tokenize "(2 + 3 * 4)" = Ok tokens ∧
     parse tokens =
       Ok ([], ExprNode "*" (ExprNode "+" (NumberNode 2) (NumberNode 3))
                        (NumberNode 4))) ∧
  (∀ lp first node items rp rest,
     type lp = LPAREN → type rp = RPAREN →
     parses first node → Forall operand items →
     parse (lp :: first ++ group_tail items ++ rp :: rest)
     = Ok (rest, left_chain node items)) ∧
  (∀ lp tokens rest node,
     type lp = LPAREN →
     parse (lp :: tokens) = Ok (rest, node) →
     ∃ first first_node items rp,
       tokens = first ++ group_tail items ++ rp :: rest ∧ type rp = RPAREN ∧
       parses first first_node ∧ Forall operand items ∧
       node = left_chain first_node items).
Proof.
  split_and!.
  - vm_compute. reflexivity.
  - assert (main.run "(2 + 3 * 4)" ∅ = Ok 20%float) as -> by (vm_compute; reflexivity).
    discriminate.
  - vm_compute. reflexivity.
  - eexists. split; vm_compute; reflexivity.
  - apply parse_group.
  - apply parse_group_inv.
Qed.

End Claims.

(** * The claims on closed inputs

    None of these inputs reaches a library call: they run on the bare
    runtime. *)

Section ClosedInputs.
#[local] Existing Instance bare_runtime.

Example tokenize_call :
  tokenize "{sqrt x}" =
  Ok [mkToken LCURLY "{"; mkToken IDENT "sqrt"; mkToken IDENT "x"; mkToken RCURLY "}"].
Proof. reflexivity. Qed.

Example run_sum : main.run "(1 + 2)" ∅ = Ok 3%float.
Proof. vm_compute. reflexivity. Qed.

(* what main.py prints *)
Example run_sqrt : main.run "{sqrt x}" {["x" := 4%float]} = Ok 2%float.
Proof. vm_compute. reflexivity. Qed.

Example run_unbound : main.run "(x)" ∅ = Raise (KeyError "x").
Proof. vm_compute. reflexivity. Qed.

Example run_unknown_function :
  main_noannotate.run "{foo x}" {["x" := 1%float]} = Raise (NameError "unknown function: foo").
Proof. vm_compute. reflexivity. Qed.

Example run_decimal : main.run "(.5 + 5. + 0.25)" ∅ = Ok 5.75%float.
Proof. vm_compute. reflexivity. Qed.

Example parse_nested :
  (tokens ← tokenize "{f (1 + 2 * x) {g y} 3}"; parse tokens) =
  Ok ([], CallNode "f"
            [ExprNode "*" (ExprNode "+" (NumberNode 1) (NumberNode 2)) (VariableNode "x");
             CallNode "g" [VariableNode "y"];
             NumberNode 3]).
Proof. vm_compute. reflexivity. Qed.

Lemma parse_strict_suffix_witness :
  (∃ consumed, consumed ≠ [] ∧
     [mkToken LPAREN "("; mkToken IDENT "x"; mkToken RPAREN ")"; mkToken IDENT "y"]
     = consumed ++ [mkToken IDENT "y"]) ∧
  length [mkToken IDENT "y"] <
  length [mkToken LPAREN "("; mkToken IDENT "x"; mkToken RPAREN ")"; mkToken IDENT "y"].
Proof.
  apply (parse_strict_suffix _ _ (VariableNode "x")).
  - discriminate.
  - reflexivity.
Defined.

Lemma division_by_zero_witness :
  eval_node ∅
    (ExprNode "/" (NumberNode 1) (NumberNode 0)) ∅ = Raise ZeroDivisionError.
Proof.
  apply (proj1 (division_by_zero) ∅
           (NumberNode 1) (NumberNode 0) ∅ 1%float 0%float);
    reflexivity.
Defined.

Lemma tokenize_space_and_unknown_witness :
  tokenize "(x + Y)" = Raise (SyntaxError "unknown character: Y").
Proof.
  apply (proj2 (proj2 (proj2 (proj2 tokenize_space_and_unknown))) "(x + " "Y"%char ")");
    reflexivity.
Defined.

(** C6, as stated, fails on the tab: it is a whitespace character, and the
    tokenizer does not skip it but raises. *)
Lemma tokenize_tab_not_skipped :
  ¬ skips "009" ∧
  tokenize ("(1 +" +:+ String "009" "2)") =
  Raise (SyntaxError ("unknown character: " +:+ str1 "009")).
Proof.
  split; [|vm_compute; reflexivity].
  intros Hskip. specialize (Hskip [] EmptyString). vm_compute in Hskip.
  discriminate.
Qed.

Lemma parse_malformed_number_witness :
  parse [mkToken NUMBER "1..5"; mkToken RPAREN ")"]
  = Raise (FloatValueError "1..5").
Proof.
  apply (proj1 (parse_malformed_number)
           (mkToken NUMBER "1..5") [mkToken RPAREN ")"]).
  - reflexivity.
  - reflexivity.
  - left. simpl. lia.
Defined.

(** C2, as stated, fails on "(1 = 2)": the text tokenizes and parses, and
    its evaluation raises the unknown-operator SyntaxError. *)
Lemma unknown_operator_reachable :
  ∃ tokens ast,
    tokenize "(1 = 2)" = Ok tokens ∧
    parse tokens = Ok ([], ast) ∧
    eval_node main_noannotate.functions ast ∅
    = Raise (SyntaxError "unknown operator: =").
Proof. do 2 eexists. split_and!; vm_compute; reflexivity. Qed.

Lemma unknown_operator_origin_witness :
  ∃ tok, tok ∈ [mkToken LPAREN "("; mkToken NUMBER "1"; mkToken IDENT "x";
                mkToken NUMBER "2"; mkToken RPAREN ")"] ∧
         "unknown operator: x" = ("unknown operator: " +:+ value tok) ∧
         (value tok ∉ known_operators) ∧
         (type tok = OPERATOR → value tok = "=").
Proof.
  apply (unknown_operator_origin main_noannotate.functions
           "(1 x 2)" _ [] (ExprNode "x" (NumberNode 1) (NumberNode 2)) ∅).
  - by right.
  - reflexivity.
  - vm_compute. reflexivity.
  - vm_compute. reflexivity.
Defined.

(** C3, as stated, fails on the call of sqrt with no argument: the failure
    is the IndexError of the out-of-range access, as also for the text
    "{sqrt}". *)
Lemma call_without_argument_is_index_error :
  eval_node main_noannotate.functions (CallNode "sqrt" []) ∅
  = Raise IndexError ∧
  main_noannotate.run "{sqrt}" ∅ = Raise IndexError ∧
  main.run "{sqrt}" ∅ = Raise IndexError.
Proof. split_and!; vm_compute; reflexivity. Qed.

Lemma call_without_argument_witness :
  eval_node main_noannotate.functions (CallNode "fact" []) ∅
  = Raise IndexError.
Proof.
  apply (call_without_argument).
  - by right.
  - apply elem_of_dom. eexists. reflexivity.
Defined.



Lemma call_extra_arguments_ignored_witness :
  eval_node main_noannotate.functions
    (CallNode "sqrt" [NumberNode 4; NumberNode 9; VariableNode "x"]) {["x" := 1%float]} =
  eval_node main_noannotate.functions
    (CallNode "sqrt" [NumberNode 4]) {["x" := 1%float]}.
Proof.
  refine (proj1 (call_extra_arguments_ignored main_noannotate.functions
                   "sqrt" (NumberNode 4) [NumberNode 9; VariableNode "x"]
                   {["x" := 1%float]} 4%float _ _ _)).
  - by right.
  - reflexivity.
  - repeat constructor; eexists; reflexivity.
Defined.

Lemma group_folds_left_witness :
  parse [mkToken LPAREN "("; mkToken NUMBER "2"; mkToken OPERATOR "+";
         mkToken NUMBER "3"; mkToken OPERATOR "*"; mkToken NUMBER "4";
         mkToken RPAREN ")"]
  = Ok ([], ExprNode "*" (ExprNode "+" (NumberNode 2) (NumberNode 3)) (NumberNode 4)).
Proof.
  apply (proj1 (proj2 (proj2 group_folds_left))
           (mkToken LPAREN "(") [mkToken NUMBER "2"] (NumberNode 2)
           [mkItem (mkToken OPERATOR "+") [mkToken NUMBER "3"] (NumberNode 3);
            mkItem (mkToken OPERATOR "*") [mkToken NUMBER "4"] (NumberNode 4)]
           (mkToken RPAREN ")") []).
  - reflexivity.
  - reflexivity.
  - apply number_token_parses. reflexivity.
  - repeat constructor; try discriminate; apply number_token_parses; reflexivity.
Defined.

End ClosedInputs.

(** * Further properties of the code *)

(** ** Tokenizer *)

Lemma append_assoc a b c : (a +:+ b) +:+ c = a +:+ (b +:+ c).
Proof. induction a as [|x a IH]; [done | by rewrite !append_cons, IH]. Qed.

Lemma literals_app tokens new :
  literals (tokens ++ new) = literals tokens +:+ literals new.
Proof.
  induction tokens as [|tok tokens IH]; [done|].
  cbn [app literals]. by rewrite IH, append_assoc.
Qed.

Lemma strip_spaces_cons c code :
  c ≠ " "%char → strip_spaces (String c code) = String c (strip_spaces code).
Proof. intros Hc. simpl. by destruct (Ascii.eqb_spec c " "). Qed.

Lemma strip_spaces_run S run code :
  " "%char ∉ S → all_in S run = true →
  strip_spaces (run +:+ code) = run +:+ strip_spaces code.
Proof.
  intros Hsp Hrun. induction run as [|c run IH]; [done|].
  unfold all_in in *. simpl in Hrun.
  apply andb_true_iff in Hrun as [Hc%bool_decide_eq_true Hrun].
  rewrite !append_cons, strip_spaces_cons, IH; [done..|].
  by intros ->.
Qed.

Lemma space_not_letter : " "%char ∉ letters.
Proof.
  intros H. apply (bool_decide_eq_true_2 _) in H. vm_compute in H. discriminate.
Qed.

Lemma space_not_number : " "%char ∉ numbers.
Proof.
  intros H. apply (bool_decide_eq_true_2 _) in H. vm_compute in H. discriminate.
Qed.

(* the branch of a one-character token in the chain of [tokenize] *)
Ltac literal_case c ch :=
  destruct (Ascii.eqb_spec c ch) as [->|?];
  [intros [= <- <-]; rewrite literals_app, append_assoc; reflexivity|].

(* an iteration moves the characters it consumes, spaces apart, from the
   text to the literals *)
Lemma tokenize_body_literals tokens c code1 tokens' code' :
  tokenize_body tokens (String c code1) = Ok (tokens', code') →
  literals tokens' +:+ strip_spaces code' =
  literals tokens +:+ strip_spaces (String c code1).
Proof.
  unfold tokenize_body.
  literal_case c "("%char. literal_case c ")"%char.
  literal_case c "{"%char. literal_case c "}"%char.
  literal_case c "+"%char. literal_case c "-"%char.
  literal_case c "*"%char. literal_case c "/"%char.
  literal_case c "="%char. literal_case c "^"%char.
  destruct (Ascii.eqb_spec c " ") as [->|Hsp]; [by intros [= <- <-]|].
  case_bool_decide as Hl.
  { rewrite get_ident_span, bind_ok_l.
    generalize (span_run_append letters (String c code1))
               (span_run_all_in letters (String c code1)).
    destruct (span_run letters (String c code1)) as [run rest]. cbn [fst snd].
    intros Happ Hall [= <- <-].
    rewrite literals_app, append_assoc. cbn [literals value].
    rewrite append_empty_r, <- Happ.
    by rewrite (strip_spaces_run letters run rest space_not_letter Hall). }
  case_bool_decide as Hn; [|discriminate].
  rewrite get_num_span, bind_ok_l.
  generalize (span_run_append numbers (String c code1))
             (span_run_all_in numbers (String c code1)).
  destruct (span_run numbers (String c code1)) as [run rest]. cbn [fst snd].
  intros Happ Hall [= <- <-].
  rewrite literals_app, append_assoc. cbn [literals value].
  rewrite append_empty_r, <- Happ.
  by rewrite (strip_spaces_run numbers run rest space_not_number Hall).
Qed.

Lemma tokenize_loop_literals fuel tokens code tokens' :
  tokenize_loop fuel tokens code = Ok tokens' →
  literals tokens' = literals tokens +:+ strip_spaces code.
Proof.
  revert tokens code. induction fuel as [|fuel IH]; intros tokens code.
  - destruct code; [|done]. intros [= <-]. by rewrite append_empty_r.
  - destruct code as [|c code1].
    { intros [= <-]. by rewrite append_empty_r. }
    cbn [tokenize_loop].
    intros ([tokens1 code'] & Hbody & Hloop)%bind_Ok.
    rewrite (IH _ _ Hloop). by eapply tokenize_body_literals.
Qed.

Lemma first_unknown_None code :
  first_unknown code = None ↔ forallb accepted (list_ascii_of_string code) = true.
Proof.
  induction code as [|c code IH]; simpl; [done|].
  destruct (accepted c); simpl; [done|]. split; discriminate.
Qed.

(** X1: [get_ident] and [get_num] raise IndexError on the empty text; on any
    other text they return the longest prefix made of lower-case letters
    (of digits and dots), which may be empty, and the text that follows. *)
Theorem get_run_longest_prefix :
  (get_ident EmptyString = Raise IndexError ∧
   ∀ c code1, ∃ ident rest,
     get_ident (String c code1) = Ok (ident, rest) ∧
     ident +:+ rest = String c code1 ∧
     all_in letters ident = true ∧ stops letters rest) ∧
  (get_num EmptyString = Raise IndexError ∧
   ∀ c code1, ∃ num rest,
     get_num (String c code1) = Ok (num, rest) ∧
     num +:+ rest = String c code1 ∧
     all_in numbers num = true ∧ stops numbers rest).
Proof.
  split; (split; [reflexivity|]); intros c code1.
  - exists (span_run letters (String c code1)).1, (span_run letters (String c code1)).2.
    split_and!; [apply get_ident_span | apply span_run_append
                | apply span_run_all_in | apply span_run_stops].
  - exists (span_run numbers (String c code1)).1, (span_run numbers (String c code1)).2.
    split_and!; [apply get_num_span | apply span_run_append
                | apply span_run_all_in | apply span_run_stops].
Qed.

(** X2: [tokenize] returns a token list exactly for the texts all of whose
    characters have a branch in its if/elif chain. *)
Theorem tokenize_succeeds_iff code :
  (∃ tokens, tokenize code = Ok tokens) ↔
  forallb accepted (list_ascii_of_string code) = true.
Proof.
  rewrite <- first_unknown_None. split.
  - intros [tokens Htok]. destruct (first_unknown code) as [c|] eqn:Hc; [|done].
    by rewrite (tokenize_first_unknown _ _ Hc) in Htok.
  - apply tokenize_all_accepted.
Qed.

(** X3: every token [tokenize] returns is well formed: a parenthesis or a
    brace holds its own character, an OPERATOR one of + - * / = ^, an IDENT
    a non-empty run of lower-case letters, a NUMBER a non-empty run of
    digits and dots. *)
Theorem tokenize_tokens_well_formed code tokens :
  tokenize code = Ok tokens → Forall (λ tok, lexeme_ok tok = true) tokens.
Proof.
  intros Htok%tokenize_lexemes. rewrite forallb_forall in Htok.
  apply Forall_forall. intros tok Hin. by apply Htok, list_elem_of_In.
Qed.

(** X4: the literals of the tokens [tokenize] returns, put end to end, are
    the text without its spaces: nothing but spaces is dropped, nothing is
    added or reordered. *)
Theorem tokenize_literals code tokens :
  tokenize code = Ok tokens → literals tokens = strip_spaces code.
Proof. intros Htok. by apply tokenize_loop_literals in Htok. Qed.

(** ** Parser *)

Lemma parse_failure_cons tok tokens e :
  parse_failure tokens e → parse_failure (tok :: tokens) e.
Proof.
  intros [->|[(t & Ht & Hty & ->)|(t & Ht & Hty & ->)]]; [by left|..].
  - right; left. exists t. split_and!; [by right | done..].
  - right; right. exists t. split_and!; [by right | done..].
Qed.

Lemma parse_failure_consumes tokens rest e :
  consumes tokens rest → parse_failure rest e → parse_failure tokens e.
Proof.
  intros (c & _ & ->) [->|[(t & Ht & Hty & ->)|(t & Ht & Hty & ->)]]; [by left|..].
  - right; left. exists t. split_and!; [apply elem_of_app; by right | done..].
  - right; right. exists t. split_and!; [apply elem_of_app; by right | done..].
Qed.

Section FurtherParser.
Context `{RT : PyRuntime}.

Lemma parse_fuel_failure fuel :
  (∀ tokens e, parse_fuel fuel tokens = Raise e →
     e = OutOfFuel ∨ parse_failure tokens e) ∧
  (∀ tokens val e, paren_loop fuel tokens val = Raise e →
     e = OutOfFuel ∨ parse_failure tokens e) ∧
  (∀ tokens params e, curly_loop fuel tokens params = Raise e →
     e = OutOfFuel ∨ parse_failure tokens e).
Proof.
  induction fuel as [|fuel (IHp & IHl & IHc)].
  { repeat split; intros; simpl in *; left; congruence. }
  repeat split.
  - intros [|tok tokens1] e; rewrite parse_fuel_S; [intros [= <-]; right; by left|].
    destruct (type tok) eqn:Hty.
    + intros [H1|([tokens val] & H1 & H2)]%bind_Raise.
      * destruct (IHp _ _ H1) as [->|Hf]; [by left|].
        right. by apply parse_failure_cons.
      * destruct (IHl _ _ _ H2) as [->|Hf]; [by left|].
        right. apply parse_failure_cons.
        eapply parse_failure_consumes; [|done]. by eapply parse_fuel_consumes.
    + intros [= <-]. right; right; left. exists tok.
      rewrite Hty. split_and!; [by left | set_solver | done].
    + destruct tokens1 as [|fn_tok tokens2]; [intros [= <-]; right; by left|].
      intros [H1|([tokens params] & _ & [=])]%bind_Raise.
      destruct (IHc _ _ _ H1) as [->|Hf]; [by left|].
      right. by do 2 apply parse_failure_cons.
    + intros [= <-]. right; right; left. exists tok.
      rewrite Hty. split_and!; [by left | set_solver | done].
    + intros [H1|(v & _ & [=])]%bind_Raise. right; right; right.
      exists tok. split_and!; [by left | done |].
      destruct (py_float_cases (value tok)) as [[v Hv]|Hv]; rewrite Hv in H1;
        [discriminate | by injection H1 as <-].
    + done.
    + intros [= <-]. right; right; left. exists tok.
      rewrite Hty. split_and!; [by left | set_solver | done].
  - intros [|tok tokens1] val e; rewrite paren_loop_S; [intros [= <-]; right; by left|].
    case_decide; [done|].
    intros [H1|([tokens r] & H1 & H2)]%bind_Raise.
    + destruct (IHp _ _ H1) as [->|Hf]; [by left|].
      right. by apply parse_failure_cons.
    + destruct (IHl _ _ _ H2) as [->|Hf]; [by left|].
      right. apply parse_failure_cons.
      eapply parse_failure_consumes; [|done]. by eapply parse_fuel_consumes.
  - intros [|tok tokens1] params e; rewrite curly_loop_S; [intros [= <-]; right; by left|].
    case_decide; [done|].
    intros [H1|([tokens p] & H1 & H2)]%bind_Raise.
    + destruct (IHp _ _ H1) as [->|Hf]; [by left | by right].
    + destruct (IHc _ _ _ H2) as [->|Hf]; [by left|].
      right. eapply parse_failure_consumes; [|done]. by eapply parse_fuel_consumes.
Qed.

Lemma paren_rest_open items val :
  Forall operand items → paren_rest (group_tail items) val = Raise IndexError.
Proof.
  intros Hitems. revert val.
  induction Hitems as [|item items [Hop Hparses] _ IH]; intros val.
  - by rewrite paren_rest_unfold.
  - cbn [group_tail]. rewrite paren_rest_unfold, decide_False by done.
    rewrite Hparses, bind_ok_l. cbv beta iota. apply IH.
Qed.

Lemma curly_rest_open args params :
  Forall argument args → curly_rest (args_tokens args) params = Raise IndexError.
Proof.
  intros Hargs. revert params.
  induction Hargs as [|[c p] args Harg _ IH]; intros params.
  - by rewrite curly_rest_unfold.
  - cbn [args_tokens fst]. unfold argument in Harg. cbn [fst snd] in Harg.
    destruct (parses_head _ _ Harg) as (tok & c' & -> & Hty & _).
    rewrite <- app_comm_cons, curly_rest_unfold, decide_False by done.
    rewrite app_comm_cons, Harg, bind_ok_l. cbv beta iota. apply IH.
Qed.

Lemma parse_call_inv lc tokens rest node :
  type lc = LCURLY →
  parse (lc :: tokens) = Ok (rest, node) →
  ∃ fn_tok args rc,
    tokens = fn_tok :: args_tokens args ++ rc :: rest ∧ type rc = RCURLY ∧
    Forall argument args ∧ node = CallNode (value fn_tok) (map snd args).
Proof.
  intros Hlc. rewrite parse_unfold, Hlc.
  destruct tokens as [|fn_tok tokens2]; [done|].
  intros ([tokens' params] & H1 & [= <- <-])%bind_Ok.
  destruct (proj2 (proj2 (parse_shapes _)) _ _ _ _ H1)
    as (args & rc & -> & Hrc & Hargs & ->).
  by exists fn_tok, args, rc.
Qed.

End FurtherParser.

Section FurtherParserTheorems.
Context `{RT : PyRuntime}.

(** X6: tokens that end before the closing parenthesis of a group, or before
    the closing brace of a call, make [parse] raise IndexError; so do the
    empty token list and a lone opening parenthesis or brace. *)
Theorem parse_unclosed :
  (∀ lp first node items,
     type lp = LPAREN → parses first node → Forall operand items →
     parse (lp :: first ++ group_tail items) = Raise IndexError) ∧
  (∀ lc fn_tok args,
     type lc = LCURLY → Forall argument args →
     parse (lc :: fn_tok :: args_tokens args) = Raise IndexError) ∧
  parse [] = Raise IndexError ∧
  (∀ tok, type tok = LPAREN ∨ type tok = LCURLY → parse [tok] = Raise IndexError).
Proof.
  split_and!.
  - intros lp first node items Hlp Hfirst Hitems.
    rewrite parse_unfold, Hlp, Hfirst, bind_ok_l. cbv beta iota.
    by apply paren_rest_open.
  - intros lc fn_tok args Hlc Hargs.
    by rewrite parse_unfold, Hlc, curly_rest_open.
  - by rewrite parse_unfold.
  - intros tok [Hty|Hty]; rewrite parse_unfold, Hty; [|done].
    by rewrite parse_unfold.
Qed.

(** X7: an opening brace, any token, the tokens of any number of arguments
    and a closing brace parse to the CALL node of that token's literal (it
    need not be an IDENT) with the arguments' trees in order; and every call
    that parses is of this form. *)
Theorem parse_call_shape :
  (∀ lc fn_tok args rc rest,
     type lc = LCURLY → type rc = RCURLY → Forall argument args →
     parse (lc :: fn_tok :: args_tokens args ++ rc :: rest)
     = Ok (rest, CallNode (value fn_tok) (map snd args))) ∧
  (∀ lc tokens rest node,
     type lc = LCURLY →
     parse (lc :: tokens) = Ok (rest, node) →
     ∃ fn_tok args rc,
       tokens = fn_tok :: args_tokens args ++ rc :: rest ∧ type rc = RCURLY ∧
       Forall argument args ∧ node = CallNode (value fn_tok) (map snd args)).
Proof. split; [apply parse_call | apply parse_call_inv]. Qed.

(** X8: what [parse] returns depends on the tokens it consumes only: when it
    succeeds, the same consumed prefix in front of any other tokens parses
    to the same tree and returns those tokens. *)
Theorem parse_prefix_only tokens rest node :
  parse tokens = Ok (rest, node) →
  ∃ consumed,
    tokens = consumed ++ rest ∧
    ∀ rest', parse (consumed ++ rest') = Ok (rest', node).
Proof. apply parse_shapes. Qed.

End FurtherParserTheorems.

(** ** The parser under the recursion limit *)

Lemma limited_bind_Within {A B} (f : A → limited B) (m : limited A) (r : outcome B) :
  m ≫= f = Within r →
  (∃ e, m = Within (Raise e) ∧ r = Raise e) ∨ (∃ a, m = Within (Ok a) ∧ f a = Within r).
Proof. destruct m as [[a|e]|]; simpl; [eauto | intros [= <-]; eauto | done]. Qed.

Lemma limited_bind_ok_l {A B} (f : A → limited B) (a : A) : Within (Ok a) ≫= f = f a.
Proof. reflexivity. Qed.

Lemma call_with_Within {A} cost frames (r r' : outcome A) :
  call_with cost frames r = Within r' → r' = r ∧ cost ≤ frames.
Proof. unfold call_with. case_decide; [by intros [= <-] | done]. Qed.

Lemma call_with_fits {A} cost frames (r : outcome A) :
  cost ≤ frames → call_with cost frames r = Within r.
Proof. intros. unfold call_with. by rewrite decide_True. Qed.

Section ParserLimit.
Context `{RT : PyRuntime} `{IP : Interpreter}.

Lemma parse_lim_S fuel frames tokens :
  parse_lim (S fuel) (S frames) tokens =
  match tokens with
  | [] => Within (Raise IndexError)
  | tok :: tokens1 =>
      match type tok with
      | IDENT => Within (Ok (tokens1, VariableNode (value tok)))
      | NUMBER => Within (v ← py_float (value tok); Ok (tokens1, NumberNode v))
      | LPAREN =>
          '(tokens, val) ← parse_lim fuel frames tokens1;
          paren_lim fuel frames tokens val
      | LCURLY =>
          match tokens1 with
          | [] => Within (Raise IndexError)
          | fn_tok :: tokens2 =>
              '(tokens, params) ← curly_lim fuel frames tokens2 [];
              Within (Ok (tokens, CallNode (value fn_tok) params))
          end
      | _ =>
          call_with repr_frames frames
            (Raise (SyntaxError ("unexpected token: " +:+ Token_repr tok)))
      end
  end.
Proof. reflexivity. Qed.

Lemma paren_lim_S fuel frames tokens val :
  paren_lim (S fuel) frames tokens val =
  match tokens with
  | [] => Within (Raise IndexError)
  | tok :: tokens1 =>
      if decide (type tok = RPAREN) then Within (Ok (tokens1, val))
      else
        '(tokens, right_node) ← parse_lim fuel frames tokens1;
        paren_lim fuel frames tokens (ExprNode (value tok) val right_node)
  end.
Proof. reflexivity. Qed.

Lemma curly_lim_S fuel frames tokens params :
  curly_lim (S fuel) frames tokens params =
  match tokens with
  | [] => Within (Raise IndexError)
  | tok :: tokens1 =>
      if decide (type tok = RCURLY) then Within (Ok (tokens1, params))
      else
        '(tokens, param) ← parse_lim fuel frames tokens;
        curly_lim fuel frames tokens (params ++ [param])
  end.
Proof. reflexivity. Qed.

(* within the limit, the outcome is the outcome without a limit *)
Lemma parse_lim_agrees fuel :
  (∀ frames tokens r,
     parse_lim fuel frames tokens = Within r → parse_fuel fuel tokens = r) ∧
  (∀ frames tokens val r,
     paren_lim fuel frames tokens val = Within r → paren_loop fuel tokens val = r) ∧
  (∀ frames tokens params r,
     curly_lim fuel frames tokens params = Within r →
     curly_loop fuel tokens params = r).
Proof.
  induction fuel as [|fuel (IHp & IHl & IHc)].
  { split_and!.
    - intros [|frames] tokens r; simpl; [done | by intros [= <-]].
    - intros frames tokens val r. simpl. by intros [= <-].
    - intros frames tokens params r. simpl. by intros [= <-]. }
  split_and!.
  - intros [|frames] tokens r; [done|]. rewrite parse_lim_S, parse_fuel_S.
    destruct tokens as [|tok tokens1]; [by intros [= <-]|].
    destruct (type tok) eqn:Hty.
    + intros [(e & H1 & ->)|([rest val] & H1 & H2)]%limited_bind_Within.
      * by rewrite (IHp _ _ _ H1).
      * rewrite (IHp _ _ _ H1), bind_ok_l. cbv beta iota. by eapply IHl.
    + by intros [-> _]%call_with_Within.
    + destruct tokens1 as [|fn_tok tokens2]; [by intros [= <-]|].
      intros [(e & H1 & ->)|([rest params] & H1 & [= <-])]%limited_bind_Within.
      * by rewrite (IHc _ _ _ _ H1).
      * by rewrite (IHc _ _ _ _ H1).
    + by intros [-> _]%call_with_Within.
    + by intros [= <-].
    + by intros [= <-].
    + by intros [-> _]%call_with_Within.
  - intros frames [|tok tokens1] val r; rewrite paren_lim_S, paren_loop_S;
      [by intros [= <-]|].
    case_decide; [by intros [= <-]|].
    intros [(e & H1 & ->)|([rest right_node] & H1 & H2)]%limited_bind_Within.
    + by rewrite (IHp _ _ _ H1).
    + rewrite (IHp _ _ _ H1), bind_ok_l. cbv beta iota. by eapply IHl.
  - intros frames [|tok tokens1] params r; rewrite curly_lim_S, curly_loop_S;
      [by intros [= <-]|].
    case_decide; [by intros [= <-]|].
    intros [(e & H1 & ->)|([rest param] & H1 & H2)]%limited_bind_Within.
    + by rewrite (IHp _ _ _ H1).
    + rewrite (IHp _ _ _ H1), bind_ok_l. cbv beta iota. by eapply IHc.
Qed.

(* the frames that suffice: every call in progress has consumed a token *)
Lemma parse_lim_enough fuel :
  (∀ frames tokens,
     length tokens + repr_frames < frames →
     parse_lim fuel frames tokens = Within (parse_fuel fuel tokens)) ∧
  (∀ frames tokens val,
     length tokens + repr_frames ≤ frames →
     paren_lim fuel frames tokens val = Within (paren_loop fuel tokens val)) ∧
  (∀ frames tokens params,
     length tokens + repr_frames < frames →
     curly_lim fuel frames tokens params = Within (curly_loop fuel tokens params)).
Proof.
  induction fuel as [|fuel (IHp & IHl & IHc)].
  { split_and!; [intros [|frames] ??; [lia | done] | done..]. }
  split_and!.
  - intros [|frames] tokens Hlen; [lia|]. rewrite parse_lim_S, parse_fuel_S.
    destruct tokens as [|tok tokens1]; [done|]. simpl in Hlen.
    destruct (type tok) eqn:Hty; try done; try (apply call_with_fits; lia).
    + rewrite IHp by lia.
      destruct (parse_fuel fuel tokens1) as [[rest val]|e] eqn:H1; [|done].
      rewrite limited_bind_ok_l, bind_ok_l. cbv beta iota.
      apply IHl. apply parse_fuel_consumes, consumes_length in H1. lia.
    + destruct tokens1 as [|fn_tok tokens2]; [done|]. simpl in Hlen.
      rewrite IHc by lia.
      by destruct (curly_loop fuel tokens2 []) as [[rest params]|e].
  - intros frames [|tok tokens1] val Hlen; rewrite paren_lim_S, paren_loop_S; [done|].
    simpl in Hlen. case_decide; [done|].
    rewrite IHp by lia.
    destruct (parse_fuel fuel tokens1) as [[rest right_node]|e] eqn:H1; [|done].
    rewrite limited_bind_ok_l, bind_ok_l. cbv beta iota.
    apply IHl. apply parse_fuel_consumes, consumes_length in H1. lia.
  - intros frames [|tok tokens1] params Hlen; rewrite curly_lim_S, curly_loop_S;
      [done|].
    case_decide; [done|].
    rewrite IHp by lia.
    destruct (parse_fuel fuel (tok :: tokens1)) as [[rest param]|e] eqn:H1; [|done].
    rewrite limited_bind_ok_l, bind_ok_l. cbv beta iota.
    apply IHc. apply parse_fuel_consumes, consumes_length in H1. lia.
Qed.

End ParserLimit.

Section ParserLimitTheorems.
Context `{RT : PyRuntime} `{IP : Interpreter}.

(** X5: under the recursion limit [parse] raises nothing but RecursionError,
    an IndexError (a read past the end of the tokens), the unexpected-token
    SyntaxError of a closing parenthesis, a closing brace or an operator of
    its input that stands where an expression starts, or the ValueError of
    the literal of a NUMBER token of its input.  Whatever it returns or
    raises within the limit is what [parse] without a limit gives, and the
    limit is not reached when the frames left exceed the number of tokens
    and the frames that format a token. *)
Theorem parse_within_raises_only frames tokens :
  (∀ r, parse_within frames tokens = Within r → r = parse tokens) ∧
  (∀ e, parse_within frames tokens = Within (Raise e) → parse_failure tokens e) ∧
  (length tokens + repr_frames < frames →
   parse_within frames tokens = Within (parse tokens)).
Proof.
  split_and!.
  - intros r Hr. symmetry. by eapply parse_lim_agrees.
  - intros e He. apply parse_lim_agrees in He.
    destruct (proj1 (parse_fuel_failure _) _ _ He) as [->|Hf]; [|done].
    by apply parse_fueled in He.
  - intros Hlen. by apply parse_lim_enough.
Qed.

End ParserLimitTheorems.

(** ** Evaluator *)

Lemma elem_of_concat_map {A B} (f : A → list B) (x : B) (l : list A) :
  x ∈ concat (map f l) ↔ ∃ a, a ∈ l ∧ x ∈ f a.
Proof.
  rewrite list_elem_of_In, in_concat. split.
  - intros (ys & (a & <- & Ha)%in_map_iff & Hx).
    exists a. by rewrite !list_elem_of_In.
  - intros (a & Ha & Hx). exists (f a).
    rewrite <- !list_elem_of_In. split; [|done].
    apply list_elem_of_In, in_map, list_elem_of_In, Ha.
Qed.

Lemma eval_params_ext (f g : Node → outcome float) params :
  Forall (λ p, f p = g p) params → eval_params f params = eval_params g params.
Proof.
  induction 1 as [|p ps Hp _ IH]; simpl; [done|]. by rewrite Hp, IH.
Qed.

Lemma eval_params_first_failure (f : Node → outcome float) ps1 p ps2 e :
  Forall (λ q, ∃ a, f q = Ok a) ps1 → f p = Raise e →
  eval_params f (ps1 ++ p :: ps2) = Raise e.
Proof.
  intros Hps1 Hp. induction Hps1 as [|q ps1 [a Ha] _ IH]; simpl.
  - by rewrite Hp.
  - by rewrite Ha, IH.
Qed.

Lemma eval_params_length (f : Node → outcome float) params args :
  eval_params f params = Ok args → length args = length params.
Proof.
  revert args. induction params as [|p ps IH]; intros args; simpl.
  - by intros [= <-].
  - intros (a & _ & (args' & Hargs & [= <-])%bind_Ok)%bind_Ok.
    simpl. by rewrite (IH _ Hargs).
Qed.

Lemma lib_call_raises r e :
  lib_call r = Raise e →
  e = MathValueError ∨ e = OverflowError ∨ e = ZeroDivisionError.
Proof. destruct r as [[]|]; simpl; intros [= <-]; auto. Qed.

Section FurtherEvaluator.
Context `{RT : PyRuntime}.

Lemma entry_raises name fn args e :
  main_noannotate.functions !! name = Some fn → fn args = Raise e →
  (e = IndexError ∧ args = []) ∨
  e = MathValueError ∨ e = OverflowError ∨ e = ZeroDivisionError.
Proof.
  intros H%noannotate_lookup.
  destruct args as [|a rest]; destruct_or!; destruct_and!; subst;
    try (intros [= <-]; by left).
  - unfold sqrt_entry, math_sqrt. simpl. case_match; [|done].
    intros [= <-]. auto.
  - unfold sin_entry. simpl. intros ?%lib_call_raises. auto.
  - unfold cos_entry. simpl. intros ?%lib_call_raises. auto.
  - unfold tan_entry. simpl. intros ?%lib_call_raises. auto.
  - unfold fact_entry. simpl.
    destruct (lib_call (math_gamma a)) eqn:Hg; simpl; [done|].
    intros [= <-]. apply lib_call_raises in Hg. auto.
Qed.

Lemma eval_failure_expr_l functions op l r variables e :
  eval_failure functions l variables e →
  eval_failure functions (ExprNode op l r) variables e.
Proof.
  destruct e; simpl; try done.
  - intros (fn & ? & ?). exists fn. split; [|done]. rewrite elem_of_app. by left.
  - intros [??]. split; [|done]. rewrite elem_of_app. by left.
  - intros (op' & ? & ? & ?). exists op'. split_and!; [|done..].
    rewrite elem_of_cons. right. rewrite elem_of_app. by left.
  - intros (fn & n & ? & ? & ?). exists fn, n. split_and!; [|done..].
    rewrite elem_of_app. by left.
Qed.

Lemma eval_failure_expr_r functions op l r variables e :
  eval_failure functions r variables e →
  eval_failure functions (ExprNode op l r) variables e.
Proof.
  destruct e; simpl; try done.
  - intros (fn & ? & ?). exists fn. split; [|done]. rewrite elem_of_app. by right.
  - intros [??]. split; [|done]. rewrite elem_of_app. by right.
  - intros (op' & ? & ? & ?). exists op'. split_and!; [|done..].
    rewrite elem_of_cons. right. rewrite elem_of_app. by right.
  - intros (fn & n & ? & ? & ?). exists fn, n. split_and!; [|done..].
    rewrite elem_of_app. by right.
Qed.

Lemma eval_failure_param functions fn_name params p variables e :
  p ∈ params →
  eval_failure functions p variables e →
  eval_failure functions (CallNode fn_name params) variables e.
Proof.
  intros Hp. destruct e; simpl; try done.
  - intros (fn & ? & ?). exists fn. split; [|done].
    rewrite elem_of_cons. right. rewrite elem_of_concat_map. eauto.
  - intros [??]. split; [|done]. rewrite elem_of_concat_map. eauto.
  - intros (op' & ? & ? & ?). exists op'. split_and!; [|done..].
    rewrite elem_of_concat_map. eauto.
  - intros (fn & n & ? & ? & ?). exists fn, n. split_and!; [|done..].
    rewrite elem_of_cons. right. rewrite elem_of_concat_map. eauto.
Qed.

Lemma eval_node_failure functions node variables e :
  program_table functions →
  eval_node functions node variables = Raise e →
  eval_failure functions node variables e.
Proof.
  intros Htable. revert e.
  induction node as [v|name|op l r IHl IHr|fn_name params IH]
    using Node_nested_ind; intros e.
  - done.
  - simpl. destruct (variables !! name) eqn:Hv; [done|].
    intros [= <-]. simpl. split; [by left | done].
  - rewrite eval_node_expr.
    intros [Hl|(left_val & _ & [Hr|(right_val & _ & Hop)]%bind_Raise)]%bind_Raise.
    + by apply eval_failure_expr_l, IHl.
    + by apply eval_failure_expr_r, IHr.
    + revert Hop.
      destruct (String.eqb_spec op "+") as [->|?]; [done|].
      destruct (String.eqb_spec op "-") as [->|?]; [done|].
      destruct (String.eqb_spec op "*") as [->|?]; [done|].
      destruct (String.eqb_spec op "/") as [->|?];
        [case_match; [by intros [= <-] | done]|].
      destruct (String.eqb_spec op "^") as [->|?].
      { intros Hpow%lib_call_raises. by destruct_or!; subst. }
      intros [= <-]. simpl. exists op. split_and!; [by left | | done].
      unfold known_operators. rewrite !elem_of_cons, elem_of_nil. tauto.
  - rewrite eval_node_call.
    destruct (functions !! fn_name) as [fn|] eqn:Hfn.
    + intros [Hargs|(args & Hargs & Hcall)]%bind_Raise.
      * apply eval_params_Raise in Hargs as (p & Hp & Hpe).
        rewrite Forall_forall in IH.
        eapply eval_failure_param; [done|]. by apply IH.
      * eapply entry_raises in Hcall; [|by eapply program_table_lookup].
        destruct Hcall as [[-> ->]|Hlib]; [|by destruct_or!; subst].
        apply eval_params_length in Hargs. destruct params; [|done].
        simpl. exists fn_name. split; [by left | by rewrite Hfn].
    + intros [= <-]. simpl. exists fn_name, (length params).
      split_and!; [by left | done..].
Qed.

End FurtherEvaluator.

Lemma eval_params_stable (f g : Node → outcome float) params :
  (∀ msg, eval_params f params ≠ Raise (NameError msg)) →
  Forall (λ p, (∀ msg, f p ≠ Raise (NameError msg)) → g p = f p) params →
  eval_params g params = eval_params f params.
Proof.
  intros Hne Hps. induction Hps as [|p ps Hp _ IH]; [done|].
  simpl in *. destruct (f p) as [a|e] eqn:Hfp.
  - rewrite Hp by done. simpl. rewrite IH; [done|].
    intros msg Hps. apply (Hne msg). by rewrite Hps.
  - rewrite Hp; [done|]. intros msg [= ->]. by apply (Hne msg).
Qed.

Section FurtherEvaluatorTheorems.
Context `{RT : PyRuntime}.

(** X9: the outcome of an evaluation depends on the bindings of the
    variables of the tree only: two binding maps that agree on them give the
    same value or the same exception, whatever the function table. *)
Theorem eval_depends_on_node_vars functions node variables1 variables2 :
  (∀ name, name ∈ node_vars node → variables1 !! name = variables2 !! name) →
  eval_node functions node variables1 = eval_node functions node variables2.
Proof.
  induction node as [v|name|op l r IHl IHr|fn_name params IH]
    using Node_nested_ind; intros Hagree.
  - done.
  - simpl. rewrite Hagree; [done | by left].
  - rewrite !eval_node_expr, IHl, IHr; [done|..];
      intros name Hname; apply Hagree; simpl; rewrite elem_of_app; auto.
  - rewrite !eval_node_call. destruct (functions !! fn_name); [|done].
    f_equal. apply eval_params_ext.
    rewrite Forall_forall in IH. apply Forall_forall. intros p Hp.
    apply IH; [done|]. intros name Hname. apply Hagree. simpl.
    rewrite elem_of_concat_map. eauto.
Qed.

(** X10: with the table of either program, an evaluation raises KeyError
    only for a variable of the tree that the bindings leave unbound. *)
Theorem key_error_origin functions node variables name :
  program_table functions →
  eval_node functions node variables = Raise (KeyError name) →
  name ∈ node_vars node ∧ variables !! name = None.
Proof. intros Htable Heval. by apply (eval_node_failure _ _ _ _ Htable Heval). Qed.

(** X11: with the table of either program, an evaluation raises NameError
    only for the name of a CALL node of the tree that the table does not
    hold, with the message "unknown function: " and that name. *)
Theorem name_error_origin functions node variables msg :
  program_table functions →
  eval_node functions node variables = Raise (NameError msg) →
  ∃ fn_name n,
    (fn_name, n) ∈ node_calls node ∧ functions !! fn_name = None ∧
    msg = "unknown function: " +:+ fn_name.
Proof. intros Htable Heval. by apply (eval_node_failure _ _ _ _ Htable Heval). Qed.

(** X12: with the table of either program, an evaluation raises IndexError
    only when the tree has a CALL node of a function of the table with no
    parameter; it never raises the ValueError of a numeric literal. *)
Theorem index_error_origin functions node variables :
  program_table functions →
  (eval_node functions node variables = Raise IndexError →
   ∃ fn_name, (fn_name, 0) ∈ node_calls node ∧ is_Some (functions !! fn_name)) ∧
  (∀ literal, eval_node functions node variables ≠ Raise (FloatValueError literal)).
Proof.
  intros Htable. split.
  - intros Heval. by apply (eval_node_failure _ _ _ _ Htable Heval).
  - intros literal Heval. by apply (eval_node_failure _ _ _ _ Htable Heval).
Qed.

(** X14: the table of main_noannotate.py extends the table of main.py: on
    every text and bindings for which the pipeline of main.py does not
    raise NameError, the pipeline of main_noannotate.py gives the same
    outcome. *)
Theorem noannotate_extends_main text variables :
  (∀ msg, main.run text variables ≠ Raise (NameError msg)) →
  main_noannotate.run text variables = main.run text variables.
Proof.
  unfold main.run, main_noannotate.run.
  destruct (tokenize text) as [tokens|e]; [|done]. rewrite !bind_ok_l.
  destruct (parse tokens) as [[rest ast]|e]; [|done]. rewrite !bind_ok_l.
  cbv beta iota. clear rest tokens text.
  induction ast as [v|name|op l r IHl IHr|fn_name params IH]
    using Node_nested_ind; intros Hne.
  - done.
  - done.
  - rewrite !eval_node_expr in *.
    destruct (eval_node main.functions l variables) as [lv|e] eqn:Hl.
    + rewrite IHl by done. rewrite !bind_ok_l in *.
      destruct (eval_node main.functions r variables) as [rv|e] eqn:Hr.
      * by rewrite IHr.
      * rewrite IHr; [done|]. intros msg [= ->]. by apply (Hne msg).
    + rewrite IHl; [done|]. intros msg [= ->]. by apply (Hne msg).
  - rewrite !eval_node_call in *.
    destruct (main.functions !! fn_name) as [fn|] eqn:Hfn;
      [|by destruct (Hne ("unknown function: " +:+ fn_name))].
    rewrite (program_table_lookup main.functions fn_name fn) by (by left || done).
    rewrite (eval_params_stable
               (λ param, eval_node main.functions param variables)
               (λ param, eval_node main_noannotate.functions param variables));
      [done | | done].
    intros msg Hargs. apply (Hne msg). by rewrite Hargs.
Qed.

(** X15: a CALL node looks its function up before it evaluates anything: an
    unknown name raises NameError whatever the parameters are; for a known
    name the parameters are evaluated from left to right and the exception
    of the first one that fails is the exception of the call. *)
Theorem call_evaluation_order functions fn_name variables :
  (functions !! fn_name = None →
   ∀ params, eval_node functions (CallNode fn_name params) variables
             = Raise (NameError ("unknown function: " +:+ fn_name))) ∧
  (is_Some (functions !! fn_name) →
   ∀ ps1 p ps2 e,
     Forall (λ q, ∃ a, eval_node functions q variables = Ok a) ps1 →
     eval_node functions p variables = Raise e →
     eval_node functions (CallNode fn_name (ps1 ++ p :: ps2)) variables = Raise e).
Proof.
  split.
  - intros Hfn params. by rewrite eval_node_call, Hfn.
  - intros [fn Hfn] ps1 p ps2 e Hps1 Hp.
    rewrite eval_node_call, Hfn.
    by rewrite (eval_params_first_failure _ ps1 p ps2 e Hps1 Hp).
Qed.

End FurtherEvaluatorTheorems.

(** ** The evaluator under the recursion limit *)

Section EvaluatorLimit.
Context `{RT : PyRuntime} `{IP : Interpreter}.

Lemma eval_node_binary functions op left_node right_node variables :
  eval_node functions (ExprNode op left_node right_node) variables =
  (left_val ← eval_node functions left_node variables;
   right_val ← eval_node functions right_node variables;
   binary_op op left_val right_val).
Proof. reflexivity. Qed.

Lemma eval_node_within_S functions frames node variables :
  eval_node_within functions (S frames) node variables =
  match node with
  | NumberNode v => Within (Ok v)
  | VariableNode name =>
      Within (match variables !! name with
              | Some v => Ok v
              | None => Raise (KeyError name)
              end)
  | ExprNode op left_node right_node =>
      left_val ← eval_node_within functions frames left_node variables;
      right_val ← eval_node_within functions frames right_node variables;
      Within (binary_op op left_val right_val)
  | CallNode fn_name params =>
      match functions !! fn_name with
      | Some fn =>
          if decide (comprehension_frames ≤ frames) then
            args ← eval_params_within
                     (λ param, eval_node_within functions
                                 (frames - comprehension_frames) param variables)
                     params;
            call_with 1 frames (fn args)
          else RecursionError
      | None => Within (Raise (NameError ("unknown function: " +:+ fn_name)))
      end
  end.
Proof. by destruct node. Qed.

Lemma eval_node_within_O functions node variables :
  eval_node_within functions 0 node variables = RecursionError.
Proof. by destruct node. Qed.

Lemma eval_params_within_agrees (f : Node → limited float) (g : Node → outcome float)
    params r :
  Forall (λ p, ∀ r, f p = Within r → g p = r) params →
  eval_params_within f params = Within r → eval_params g params = r.
Proof.
  intros Hps. revert r. induction Hps as [|p ps Hp _ IH]; intros r; simpl.
  - by intros [= <-].
  - intros [(e & H1 & ->)|(a & H1 & H2)]%limited_bind_Within.
    + by rewrite (Hp _ H1).
    + rewrite (Hp _ H1), bind_ok_l.
      apply limited_bind_Within in H2 as [(e & H2 & ->)|(args & H2 & [= <-])].
      * by rewrite (IH _ H2).
      * by rewrite (IH _ H2).
Qed.

(* within the limit, the outcome is the outcome without a limit *)
Lemma eval_node_within_agrees functions frames node variables r :
  eval_node_within functions frames node variables = Within r →
  eval_node functions node variables = r.
Proof.
  revert frames r.
  induction node as [v|name|op l r' IHl IHr|fn_name params IH]
    using Node_nested_ind; intros [|frames] r;
    rewrite ?eval_node_within_O, ?eval_node_within_S; try done.
  - by intros [= <-].
  - by intros [= <-].
  - rewrite eval_node_binary.
    intros [(e & H1 & ->)|(lv & H1 & H2)]%limited_bind_Within.
    + by rewrite (IHl _ _ H1).
    + rewrite (IHl _ _ H1), bind_ok_l.
      apply limited_bind_Within in H2 as [(e & H2 & ->)|(rv & H2 & [= <-])].
      * by rewrite (IHr _ _ H2).
      * by rewrite (IHr _ _ H2).
  - rewrite eval_node_call. destruct (functions !! fn_name) as [fn|];
      [|by intros [= <-]].
    case_decide; [|done].
    assert (Hargs : ∀ rr,
      eval_params_within
        (λ param, eval_node_within functions (frames - comprehension_frames)
                    param variables) params = Within rr →
      eval_params (λ param, eval_node functions param variables) params = rr).
    { intros rr. apply eval_params_within_agrees.
      eapply Forall_impl; [exact IH|]. intros p Hp r0. apply Hp. }
    intros [(e & H1 & ->)|(args & H1 & [-> _]%call_with_Within)]%limited_bind_Within.
    + by rewrite (Hargs _ H1).
    + by rewrite (Hargs _ H1).
Qed.



End EvaluatorLimit.

(** ** The plot *)

Lemma range0_lookup n i x :
  range0 n !! i = Some x → x = Z.of_nat i ∧ (0 ≤ x < n)%Z.
Proof.
  unfold range0. rewrite list_lookup_fmap.
  destruct (seq 0 (Z.to_nat n) !! i) as [k|] eqn:Hk; [|done].
  intros [= <-]. apply lookup_seq in Hk as [-> Hi]. simpl. lia.
Qed.

Lemma float_truediv_Raise a b e :
  float_truediv a b = Raise e → e = ZeroDivisionError ∧ (b =? 0)%float = true.
Proof. unfold float_truediv. case_match; [by intros [= <-] | done]. Qed.

Section PlotFacts.
Context `{RT : PyRuntime}.

Lemma draw_columns_cons view eq x columns st lines :
  draw_columns view eq (x :: columns) st lines =
  (xv ← screenx_to_coord view x;
   match eval_node main_noannotate.functions eq {["x" := xv]} with
   | Raise e =>
       if caught e then
         draw_columns view eq columns (mkPlot (prevxv st) (prevyv st) true) lines
       else Raise e
   | Ok yv =>
       if noprev st then
         draw_columns view eq columns (mkPlot xv yv false) lines
       else
         draw_columns view eq columns (mkPlot xv yv false)
           (lines ++ [(coord_to_screen view (prevxv st) (prevyv st),
                       coord_to_screen view xv yv)])
   end).
Proof. reflexivity. Qed.

(* the lines a run of the loop adds: the first from the point kept in the
   state to the first column, the others between neighbours of the list *)
Lemma draw_columns_lines view eq columns st lines0 lines :
  draw_columns view eq columns st lines0 = Ok lines →
  ∃ new,
    lines = lines0 ++ new ∧
    ∀ ln, ln ∈ new →
      (noprev st = false ∧
       ln.1 = coord_to_screen view (prevxv st) (prevyv st) ∧
       ∃ x, columns !! 0%nat = Some x ∧ plotted view eq x ln.2) ∨
      (∃ i x1 x2,
         columns !! i = Some x1 ∧ columns !! S i = Some x2 ∧
         plotted view eq x1 ln.1 ∧ plotted view eq x2 ln.2).
Proof.
  revert st lines0. induction columns as [|x columns IH]; intros st lines0.
  - intros [= <-]. exists []. split; [by rewrite app_nil_r|]. by intros ln ?%elem_of_nil.
  - rewrite draw_columns_cons.
    intros (xv & Hxv & Hrest)%bind_Ok.
    destruct (eval_node main_noannotate.functions eq {["x" := xv]})
      as [yv|e] eqn:Hyv.
    + assert (Hx : plotted view eq x (coord_to_screen view xv yv))
        by (by exists xv, yv).
      assert (Hshift : ∀ (new' : list line) (ln : line),
        (∀ ln', ln' ∈ new' →
           (noprev (mkPlot xv yv false) = false ∧
            ln'.1 = coord_to_screen view xv yv ∧
            ∃ x', columns !! 0%nat = Some x' ∧ plotted view eq x' ln'.2) ∨
           (∃ i x1 x2,
              columns !! i = Some x1 ∧ columns !! S i = Some x2 ∧
              plotted view eq x1 ln'.1 ∧ plotted view eq x2 ln'.2)) →
        ln ∈ new' →
        ∃ i x1 x2,
          (x :: columns) !! i = Some x1 ∧ (x :: columns) !! S i = Some x2 ∧
          plotted view eq x1 ln.1 ∧ plotted view eq x2 ln.2).
      { intros new' ln Hnew' Hln.
        destruct (Hnew' ln Hln)
          as [(_ & H1 & x' & Hx' & Hp')|(i & x1 & x2 & Hi1 & Hi2 & Hp1 & Hp2)].
        - exists 0%nat, x, x'. rewrite H1.
          split_and!; [reflexivity | exact Hx' | exact Hx | exact Hp'].
        - exists (S i), x1, x2.
          split_and!; [exact Hi1 | exact Hi2 | exact Hp1 | exact Hp2]. }
      destruct (noprev st) eqn:Hnp.
      * destruct (IH _ _ Hrest) as (new & -> & Hnew).
        exists new. split; [done|]. intros ln Hln. right. by eapply Hshift.
      * destruct (IH _ _ Hrest) as (new & -> & Hnew).
        exists ((coord_to_screen view (prevxv st) (prevyv st),
                 coord_to_screen view xv yv) :: new).
        split; [by rewrite <- app_assoc|].
        intros ln [->|Hln]%elem_of_cons.
        -- left. split_and!; [done..|]. by exists x.
        -- right. by eapply Hshift.
    + destruct (caught e); [|done].
      destruct (IH _ _ Hrest) as (new & -> & Hnew).
      exists new. split; [done|]. intros ln Hln. right.
      destruct (Hnew ln Hln)
        as [([=] & _)|(i & x1 & x2 & Hi1 & Hi2 & Hp1 & Hp2)].
      exists (S i), x1, x2.
      split_and!; [exact Hi1 | exact Hi2 | exact Hp1 | exact Hp2].
Qed.

Lemma plot_point_plotted view eq x p :
  plot_point view eq x = Some p → plotted view eq x p.
Proof.
  unfold plot_point, plotted.
  destruct (screenx_to_coord view x) as [xv|] eqn:Hxv; [|done].
  destruct (eval_node main_noannotate.functions eq {["x" := xv]})
    as [yv|] eqn:Hyv; [|done].
  intros [= <-]. by exists xv, yv.
Qed.

End PlotFacts.

Section PlotTheorems.
Context `{RT : PyRuntime}.

(** X16: every line the plot loop draws joins the screen points of two
    neighbouring columns at both of which the equation evaluates: no line
    crosses a column where the evaluation failed.  For [draw_function] the
    two columns are pixel columns x and x + 1 of the window. *)
Theorem plot_lines_join_neighbours view eq :
  (∀ columns prevx prevy lines,
     draw_columns view eq columns (mkPlot prevx prevy true) [] = Ok lines →
     ∀ ln, ln ∈ lines →
       ∃ i x1 x2,
         columns !! i = Some x1 ∧ columns !! S i = Some x2 ∧
         plotted view eq x1 ln.1 ∧ plotted view eq x2 ln.2) ∧
  (∀ lines,
     draw_function view eq = Ok lines →
     ∀ ln, ln ∈ lines →
       ∃ x, (0 ≤ x ∧ x + 1 < WIDTH)%Z ∧
            plotted view eq x ln.1 ∧ plotted view eq (x + 1) ln.2).
Proof.
  assert (Hgen : ∀ columns prevx prevy lines,
     draw_columns view eq columns (mkPlot prevx prevy true) [] = Ok lines →
     ∀ ln, ln ∈ lines →
       ∃ i x1 x2,
         columns !! i = Some x1 ∧ columns !! S i = Some x2 ∧
         plotted view eq x1 ln.1 ∧ plotted view eq x2 ln.2).
  { intros columns prevx prevy lines Hdraw ln Hln.
    destruct (draw_columns_lines _ _ _ _ _ _ Hdraw) as (new & -> & Hnew).
    by destruct (Hnew ln Hln) as [([=] & _)|?]. }
  split; [exact Hgen|].
  unfold draw_function. pose proof (range0_lookup WIDTH) as Hrange.
  revert Hrange. generalize (range0 WIDTH) as columns. generalize WIDTH as width.
  intros width columns Hrange lines Hdraw ln Hln.
  destruct (Hgen _ _ _ _ Hdraw ln Hln) as (i & x1 & x2 & H1 & H2 & Hp1 & Hp2).
  apply Hrange in H1 as [-> ?]. apply Hrange in H2 as [-> ?].
  exists (Z.of_nat i). split; [lia|]. split; [done|].
  by replace (Z.of_nat i + 1)%Z with (Z.of_nat (S i)) by lia.
Qed.

End PlotTheorems.

(** ** The plot under the limits of the interpreter and of the display *)

Section PlotLimit.
Context `{RT : PyRuntime} `{IP : Interpreter} `{DP : Display}.

Lemma draw_columns_within_cons frames view eq x columns st lines :
  draw_columns_within frames view eq (x :: columns) st lines =
  match call_with 1 frames (screenx_to_coord view x) with
  | RecursionError => PlotRecursionError
  | Within (Raise e) => PlotRaise e
  | Within (Ok xv) =>
      match eval_node_within main_noannotate.functions frames eq {["x" := xv]} with
      | RecursionError => PlotRecursionError
      | Within (Raise e) =>
          if caught e then
            draw_columns_within frames view eq columns
              (mkPlot (prevxv st) (prevyv st) true) lines
          else PlotRaise e
      | Within (Ok yv) =>
          if noprev st then
            draw_columns_within frames view eq columns (mkPlot xv yv false) lines
          else
            let ln := (coord_to_screen view (prevxv st) (prevyv st),
                       coord_to_screen view xv yv) in
            if pygame_draw_line ln then
              draw_columns_within frames view eq columns (mkPlot xv yv false)
                (lines ++ [ln])
            else LineRefused ln
      end
  end.
Proof. reflexivity. Qed.

(* an evaluation within the limit has a frame for the helpers of the loop *)
Lemma eval_node_within_frame functions frames node variables r :
  eval_node_within functions frames node variables = Within r → 1 ≤ frames.
Proof. destruct frames; [by rewrite eval_node_within_O | lia]. Qed.

Lemma draw_columns_within_polyline frames view eq columns points st lines0 :
  Forall2 (plotted_within frames view eq) columns points →
  Forall (λ ln, pygame_draw_line ln = true)
    (if noprev st then polyline points
     else polyline (coord_to_screen view (prevxv st) (prevyv st) :: points)) →
  draw_columns_within frames view eq columns st lines0 =
  Plotted (lines0 ++
           if noprev st then polyline points
           else polyline (coord_to_screen view (prevxv st) (prevyv st) :: points)).
Proof.
  intros Hall. revert st lines0.
  induction Hall as [|x p columns points (xv & yv & Hxv & Hyv & ->) Hall IH];
    intros st lines0 Hdrawn.
  - simpl. destruct (noprev st); by rewrite app_nil_r.
  - rewrite draw_columns_within_cons, call_with_fits, Hxv, Hyv
      by (by eapply eval_node_within_frame).
    destruct (noprev st).
    + by rewrite IH.
    + cbn [polyline] in Hdrawn. apply Forall_cons in Hdrawn as [Hln Hdrawn].
      cbv zeta. rewrite Hln, IH by done. cbn [noprev prevxv prevyv polyline].
      by rewrite <- app_assoc.
Qed.

Lemma draw_columns_within_Plotted frames view eq columns st lines0 lines :
  draw_columns_within frames view eq columns st lines0 = Plotted lines →
  Forall (passes_within frames view eq) columns ∧
  ∃ new, lines = lines0 ++ new ∧ Forall (λ ln, pygame_draw_line ln = true) new.
Proof.
  revert st lines0. induction columns as [|x columns IH]; intros st lines0.
  - intros [= <-]. split; [done|]. exists []. by rewrite app_nil_r.
  - rewrite draw_columns_within_cons.
    destruct (call_with 1 frames (screenx_to_coord view x)) as [[xv|e]|] eqn:Hxv;
      [|done..].
    apply call_with_Within in Hxv as [Hxv _].
    destruct (eval_node_within main_noannotate.functions frames eq {["x" := xv]})
      as [[yv|e]|] eqn:Hyv; [| |done].
    + assert (Hx : passes_within frames view eq x).
      { exists xv, (Ok yv). by split_and!. }
      destruct (noprev st).
      * intros (Hrest & new & -> & Hnew)%IH. split; [by constructor|]. by exists new.
      * cbv zeta. destruct (pygame_draw_line _) eqn:Hln; [|done].
        intros (Hrest & new & -> & Hnew)%IH. split; [by constructor|].
        eexists (_ :: new). split; [by rewrite <- app_assoc|]. by constructor.
    + destruct (caught e) eqn:He; [|done].
      intros (Hrest & new & -> & Hnew)%IH. split; [|by exists new].
      constructor; [|done]. exists xv, (Raise e). split_and!; [done..|].
      by intros e' [= <-].
Qed.

Lemma draw_columns_within_passes frames view eq columns st lines0 :
  (∀ ln, pygame_draw_line ln = true) →
  Forall (passes_within frames view eq) columns →
  ∃ lines, draw_columns_within frames view eq columns st lines0 = Plotted lines.
Proof.
  intros Hdisplay Hall. revert st lines0.
  induction Hall as [|x columns (xv & r & Hxv & Hr & Hcaught) _ IH]; intros st lines0.
  - by eexists.
  - rewrite draw_columns_within_cons, call_with_fits, Hxv, Hr
      by (by eapply eval_node_within_frame).
    destruct r as [yv|e].
    + destruct (noprev st); [apply IH|]. cbv zeta. rewrite Hdisplay. apply IH.
    + rewrite (Hcaught e) by done. apply IH.
Qed.

Lemma draw_columns_within_Raise frames view eq columns st lines0 e :
  draw_columns_within frames view eq columns st lines0 = PlotRaise e →
  ∃ x, x ∈ columns ∧
    ((e = ZeroDivisionError ∧ (scale view =? 0)%float = true) ∨
     (∃ xv, screenx_to_coord view x = Ok xv ∧
            eval_node_within main_noannotate.functions frames eq {["x" := xv]}
              = Within (Raise e) ∧
            caught e = false)).
Proof.
  revert st lines0. induction columns as [|x columns IH]; intros st lines0; [done|].
  rewrite draw_columns_within_cons.
  assert (Hlater : ∀ st' lines',
    draw_columns_within frames view eq columns st' lines' = PlotRaise e →
    ∃ x', x' ∈ x :: columns ∧
      ((e = ZeroDivisionError ∧ (scale view =? 0)%float = true) ∨
       (∃ xv, screenx_to_coord view x' = Ok xv ∧
              eval_node_within main_noannotate.functions frames eq {["x" := xv]}
                = Within (Raise e) ∧
              caught e = false))).
  { intros st' lines' (x' & Hx' & H)%IH. exists x'. split; [by right | done]. }
  destruct (call_with 1 frames (screenx_to_coord view x)) as [[xv|e']|] eqn:Hxv;
    [| |done]; apply call_with_Within in Hxv as [Hxv _].
  - destruct (eval_node_within main_noannotate.functions frames eq {["x" := xv]})
      as [[yv|e']|] eqn:Hyv; [| |done].
    + destruct (noprev st); [by eapply Hlater|].
      cbv zeta. destruct (pygame_draw_line _); [by eapply Hlater | done].
    + destruct (caught e') eqn:He'; [by eapply Hlater|].
      intros [= ->]. exists x. split; [by left|]. right. by exists xv.
  - intros [= ->]. exists x. split; [by left|]. left.
    symmetry in Hxv. by apply float_truediv_Raise in Hxv.
Qed.

Lemma draw_columns_within_RecursionError frames view eq columns st lines0 :
  draw_columns_within frames view eq columns st lines0 = PlotRecursionError →
  ∃ x, x ∈ columns ∧
    (frames = 0 ∨
     ∃ xv, screenx_to_coord view x = Ok xv ∧
           eval_node_within main_noannotate.functions frames eq {["x" := xv]}
             = RecursionError).
Proof.
  revert st lines0. induction columns as [|x columns IH]; intros st lines0; [done|].
  rewrite draw_columns_within_cons.
  assert (Hlater : ∀ st' lines',
    draw_columns_within frames view eq columns st' lines' = PlotRecursionError →
    ∃ x', x' ∈ x :: columns ∧
      (frames = 0 ∨
       ∃ xv, screenx_to_coord view x' = Ok xv ∧
             eval_node_within main_noannotate.functions frames eq {["x" := xv]}
               = RecursionError)).
  { intros st' lines' (x' & Hx' & H)%IH. exists x'. split; [by right | done]. }
  unfold call_with. case_decide as Hframes.
  - destruct (screenx_to_coord view x) as [xv|e'] eqn:Hxv; [|done].
    destruct (eval_node_within main_noannotate.functions frames eq {["x" := xv]})
      as [[yv|e']|] eqn:Hyv.
    + destruct (noprev st); [by eapply Hlater|].
      cbv zeta. destruct (pygame_draw_line _); [by eapply Hlater | done].
    + destruct (caught e'); [by eapply Hlater | done].
    + intros _. exists x. split; [by left|]. right. by exists xv.
  - intros _. exists x. split; [by left|]. left. lia.
Qed.

Lemma draw_columns_within_refused frames view eq columns st lines0 ln :
  draw_columns_within frames view eq columns st lines0 = LineRefused ln →
  pygame_draw_line ln = false.
Proof.
  revert st lines0. induction columns as [|x columns IH]; intros st lines0; [done|].
  rewrite draw_columns_within_cons.
  destruct (call_with 1 frames (screenx_to_coord view x)) as [[xv|e']|]; [|done..].
  destruct (eval_node_within main_noannotate.functions frames eq {["x" := xv]})
    as [[yv|e']|]; [| |done].
  - destruct (noprev st); [apply IH|]. cbv zeta.
    destruct (pygame_draw_line (coord_to_screen view (prevxv st) (prevyv st),
                                coord_to_screen view xv yv)) eqn:Hln;
      [apply IH | by intros [= <-]].
  - destruct (caught e'); [apply IH | done].
Qed.

(* the lines of a plot that ends are those of the loop without limits *)
Lemma draw_columns_within_agrees frames view eq columns st lines0 lines :
  draw_columns_within frames view eq columns st lines0 = Plotted lines →
  draw_columns view eq columns st lines0 = Ok lines.
Proof.
  revert st lines0. induction columns as [|x columns IH]; intros st lines0.
  - by intros [= <-].
  - rewrite draw_columns_within_cons, draw_columns_cons.
    destruct (call_with 1 frames (screenx_to_coord view x)) as [[xv|e]|] eqn:Hxv;
      [|done..].
    apply call_with_Within in Hxv as [<- _]. rewrite bind_ok_l.
    destruct (eval_node_within main_noannotate.functions frames eq {["x" := xv]})
      as [[yv|e]|] eqn:Hyv; [| |done];
      rewrite (eval_node_within_agrees _ _ _ _ _ Hyv).
    + destruct (noprev st); [apply IH|].
      cbv zeta. destruct (pygame_draw_line _); [apply IH | done].
    + destruct (caught e); [apply IH | done].
Qed.

Lemma plot_point_within_plotted frames view eq x p :
  plot_point_within frames view eq x = Some p → plotted_within frames view eq x p.
Proof.
  unfold plot_point_within, plotted_within.
  destruct (screenx_to_coord view x) as [xv|] eqn:Hxv; [|done].
  destruct (eval_node_within main_noannotate.functions frames eq {["x" := xv]})
    as [[yv|]|] eqn:Hyv; [|done..].
  intros [= <-]. by exists xv, yv.
Qed.

(** X17: for an equation without the operator ^, when within the frames
    left the equation evaluates at every column and pygame.draw.line takes
    every line of the polyline of the screen points, the plot loop ends
    having drawn that polyline, one line from each column to the next. *)
Theorem plot_within_polyline frames view eq columns points prevx prevy :
  "^" ∉ node_ops eq →
  Forall2 (plotted_within frames view eq) columns points →
  Forall (λ ln, pygame_draw_line ln = true) (polyline points) →
  draw_columns_within frames view eq columns (mkPlot prevx prevy true) []
  = Plotted (polyline points).
Proof.
  intros _ Hall Hdrawn.
  by rewrite (draw_columns_within_polyline _ _ _ _ points).
Qed.

(** X18: for an equation without the operator ^, when the plot of
    [draw_function] ends, no pixel column has stopped it (the coordinate is
    computed, the scale not being zero, and within the frames left the
    equation evaluates or raises ZeroDivisionError or ValueError, the two
    exceptions the loop catches), pygame.draw.line has taken every line
    drawn, and the lines are those of the loop without limits; and the plot
    ends when no column stops it and pygame.draw.line takes every line. *)
Theorem plot_within_completes frames view eq :
  "^" ∉ node_ops eq →
  (∀ lines,
     draw_function_within frames view eq = Plotted lines →
     Forall (passes_within frames view eq) (range0 WIDTH) ∧
     Forall (λ ln, pygame_draw_line ln = true) lines ∧
     draw_function view eq = Ok lines) ∧
  ((∀ ln, pygame_draw_line ln = true) →
   Forall (passes_within frames view eq) (range0 WIDTH) →
   ∃ lines, draw_function_within frames view eq = Plotted lines).
Proof.
  intros _. unfold draw_function_within, draw_function.
  generalize (range0 WIDTH) as columns. intros columns. split.
  - intros lines Hdraw. split_and!.
    + by apply draw_columns_within_Plotted in Hdraw as [? _].
    + by apply draw_columns_within_Plotted in Hdraw as (_ & new & -> & ?).
    + by eapply draw_columns_within_agrees.
  - apply draw_columns_within_passes.
Qed.

(** X19: for an equation without the operator ^, the plot of
    [draw_function] is stopped by nothing but the ZeroDivisionError of a
    zero scale, an exception that the evaluation of the equation raises at
    a pixel column and that is neither ZeroDivisionError nor ValueError (a
    KeyError, NameError, SyntaxError, IndexError or OverflowError of the
    evaluator), the RecursionError of an evaluation that the frames left do
    not hold, or the exception of pygame.draw.line on a line it does not
    take. *)
Theorem plot_within_stops frames view eq :
  "^" ∉ node_ops eq →
  (∀ e,
     draw_function_within frames view eq = PlotRaise e →
     ∃ x, (0 ≤ x < WIDTH)%Z ∧
       ((e = ZeroDivisionError ∧ (scale view =? 0)%float = true) ∨
        (∃ xv, screenx_to_coord view x = Ok xv ∧
               eval_node_within main_noannotate.functions frames eq {["x" := xv]}
                 = Within (Raise e) ∧
               caught e = false))) ∧
  (draw_function_within frames view eq = PlotRecursionError →
   ∃ x, (0 ≤ x < WIDTH)%Z ∧
     (frames = 0 ∨
      ∃ xv, screenx_to_coord view x = Ok xv ∧
            eval_node_within main_noannotate.functions frames eq {["x" := xv]}
              = RecursionError)) ∧
  (∀ ln,
     draw_function_within frames view eq = LineRefused ln →
     pygame_draw_line ln = false).
Proof.
  intros _. unfold draw_function_within.
  pose proof (range0_lookup WIDTH) as Hrange.
  revert Hrange. generalize (range0 WIDTH) as columns. generalize WIDTH as width.
  intros width columns Hrange. split_and!.
  - intros e (x & Hx & H)%draw_columns_within_Raise.
    exists x. split; [|done].
    apply list_elem_of_lookup in Hx as [i Hi]. by apply Hrange in Hi as [_ ?].
  - intros (x & Hx & H)%draw_columns_within_RecursionError.
    exists x. split; [|done].
    apply list_elem_of_lookup in Hx as [i Hi]. by apply Hrange in Hi as [_ ?].
  - intros ln. apply draw_columns_within_refused.
Qed.

End PlotLimit.

(** X20: at the view the program starts with, every pixel column and every
    pixel row of the window comes back exactly from its coordinate:
    [coord_to_screen] undoes [screenx_to_coord] and [screeny_to_coord]. *)
Theorem home_round_trip :
  forallb column_round_trip (range0 WIDTH) = true ∧
  forallb row_round_trip (range0 HEIGHT) = true.
Proof. split; vm_compute; reflexivity. Qed.

(** * The further properties on closed inputs *)

Section FurtherClosedInputs.
#[local] Existing Instance bare_runtime.
#[local] Existing Instance inlining_interpreter.
#[local] Existing Instance lenient_display.

Lemma tokenize_tokens_well_formed_witness :
  Forall (λ tok, lexeme_ok tok = true)
    [mkToken LPAREN "("; mkToken IDENT "ab"; mkToken OPERATOR "+";
     mkToken NUMBER "12"; mkToken RPAREN ")"].
Proof. apply (tokenize_tokens_well_formed "(ab + 12)"). reflexivity. Defined.

Lemma tokenize_literals_witness :
  literals [mkToken LPAREN "("; mkToken IDENT "ab"; mkToken OPERATOR "+";
            mkToken NUMBER "12"; mkToken RPAREN ")"]
  = strip_spaces "(ab + 12)".
Proof. apply (tokenize_literals "(ab + 12)"). reflexivity. Defined.

Lemma parse_unclosed_witness :
  parse [mkToken LPAREN "("; mkToken NUMBER "1"; mkToken OPERATOR "+";
         mkToken NUMBER "2"]
  = Raise IndexError.
Proof.
  apply (proj1 parse_unclosed (mkToken LPAREN "(") [mkToken NUMBER "1"] (NumberNode 1)
           [mkItem (mkToken OPERATOR "+") [mkToken NUMBER "2"] (NumberNode 2)]).
  - reflexivity.
  - apply number_token_parses. reflexivity.
  - repeat constructor; try discriminate; apply number_token_parses; reflexivity.
Defined.

Lemma parse_call_shape_witness :
  parse [mkToken LCURLY "{"; mkToken NUMBER "7"; mkToken NUMBER "4";
         mkToken IDENT "x"; mkToken RCURLY "}"]
  = Ok ([], CallNode "7" [NumberNode 4; VariableNode "x"]).
Proof.
  apply (proj1 parse_call_shape (mkToken LCURLY "{") (mkToken NUMBER "7")
           [([mkToken NUMBER "4"], NumberNode 4);
            ([mkToken IDENT "x"], VariableNode "x")]
           (mkToken RCURLY "}") []).
  - reflexivity.
  - reflexivity.
  - repeat apply Forall_cons_2; try apply Forall_nil_2.
    + apply number_token_parses. reflexivity.
    + apply ident_token_parses.
Defined.

Lemma parse_prefix_only_witness :
  ∃ consumed,
    [mkToken LPAREN "("; mkToken IDENT "x"; mkToken RPAREN ")"; mkToken IDENT "y"]
    = consumed ++ [mkToken IDENT "y"] ∧
    ∀ rest', parse (consumed ++ rest') = Ok (rest', VariableNode "x").
Proof. apply parse_prefix_only. vm_compute. reflexivity. Defined.

Lemma eval_depends_on_node_vars_witness :
  eval_node main_noannotate.functions
    (ExprNode "*" (VariableNode "x") (VariableNode "x"))
    {["x" := 3%float; "y" := 1%float]} =
  eval_node main_noannotate.functions
    (ExprNode "*" (VariableNode "x") (VariableNode "x"))
    {["x" := 3%float]}.
Proof.
  apply eval_depends_on_node_vars. intros name Hname.
  apply list_elem_of_In in Hname. simpl in Hname.
  destruct Hname as [<-|[<-|[]]]; reflexivity.
Defined.

Lemma key_error_origin_witness :
  "y" ∈ node_vars (ExprNode "+" (VariableNode "x") (VariableNode "y")) ∧
  ({["x" := 1%float]} : gmap string float) !! "y" = None.
Proof.
  apply (key_error_origin main_noannotate.functions).
  - by right.
  - reflexivity.
Defined.

Lemma name_error_origin_witness :
  ∃ fn_name n,
    (fn_name, n) ∈ node_calls (CallNode "sqrt" [CallNode "foo" [NumberNode 1]]) ∧
    main.functions !! fn_name = None ∧
    "unknown function: foo" = "unknown function: " +:+ fn_name.
Proof.
  apply (name_error_origin main.functions _ ∅).
  - by left.
  - reflexivity.
Defined.

Lemma index_error_origin_witness :
  ∃ fn_name,
    (fn_name, 0) ∈ node_calls (ExprNode "+" (NumberNode 1) (CallNode "tan" [])) ∧
    is_Some (main_noannotate.functions !! fn_name).
Proof.
  apply (proj1 (index_error_origin main_noannotate.functions _ ∅ (or_intror eq_refl))).
  reflexivity.
Defined.

Lemma noannotate_extends_main_witness :
  main_noannotate.run "({sqrt x} / 0)" {["x" := 4%float]}
  = main.run "({sqrt x} / 0)" {["x" := 4%float]}.
Proof.
  apply noannotate_extends_main. intros msg. vm_compute. discriminate.
Defined.

Lemma call_evaluation_order_witness :
  eval_node main_noannotate.functions
    (CallNode "sqrt" [NumberNode 4; VariableNode "y"; CallNode "foo" []]) ∅
  = Raise (KeyError "y").
Proof.
  apply (proj2 (call_evaluation_order main_noannotate.functions "sqrt" ∅)
           (ltac:(by eexists)) [NumberNode 4] (VariableNode "y") [CallNode "foo" []]).
  - repeat constructor. by eexists.
  - reflexivity.
Defined.

Lemma plot_lines_join_neighbours_witness :
  ∃ i x1 x2,
    [399; 400; 401; 402]%Z !! i = Some x1 ∧ [399; 400; 401; 402]%Z !! S i = Some x2 ∧
    plotted home reciprocal x1 (default (0, 0)%float (plot_point home reciprocal 401)) ∧
    plotted home reciprocal x2 (default (0, 0)%float (plot_point home reciprocal 402)).
Proof.
  apply (proj1 (plot_lines_join_neighbours home reciprocal)
           [399; 400; 401; 402]%Z 0%float 0%float
           [(default (0, 0)%float (plot_point home reciprocal 401),
             default (0, 0)%float (plot_point home reciprocal 402))]
           ltac:(vm_compute; reflexivity)
           (default (0, 0)%float (plot_point home reciprocal 401),
            default (0, 0)%float (plot_point home reciprocal 402))).
  by left.
Defined.

(* two nested parentheses around a number take three frames *)
Example parse_within_overflows :
  parse_within 2 [mkToken LPAREN "("; mkToken LPAREN "("; mkToken NUMBER "1";
                  mkToken RPAREN ")"; mkToken RPAREN ")"]
  = RecursionError ∧
  parse_within 3 [mkToken LPAREN "("; mkToken LPAREN "("; mkToken NUMBER "1";
                  mkToken RPAREN ")"; mkToken RPAREN ")"]
  = Within (Ok ([], NumberNode 1)).
Proof. split; reflexivity. Qed.

Lemma parse_within_raises_only_witness :
  parse_failure [mkToken LPAREN "("; mkToken NUMBER "1"; mkToken OPERATOR "+";
                 mkToken RPAREN ")"]
    (SyntaxError "unexpected token: Token(TokenType.RPAREN, ))").
Proof.
  apply (proj1 (proj2 (parse_within_raises_only 9 _))). vm_compute. reflexivity.
Defined.


Lemma reciprocal_no_power : "^" ∉ node_ops reciprocal.
Proof.
  intros H. apply list_elem_of_In in H. simpl in H. by destruct H as [[=]|[]].
Qed.

Lemma plot_within_polyline_witness :
  draw_columns_within 2 home reciprocal [401; 402; 403]%Z (mkPlot 0 0 true) [] =
  Plotted (polyline [default (0, 0)%float (plot_point_within 2 home reciprocal 401);
                     default (0, 0)%float (plot_point_within 2 home reciprocal 402);
                     default (0, 0)%float (plot_point_within 2 home reciprocal 403)]).
Proof.
  apply plot_within_polyline.
  - exact reciprocal_no_power.
  - repeat apply Forall2_cons_2; try apply Forall2_nil_2;
      apply plot_point_within_plotted; vm_compute; reflexivity.
  - repeat apply Forall_cons_2; try apply Forall_nil_2; reflexivity.
Defined.

Lemma plot_within_completes_witness :
  ∃ lines, draw_function_within 2 home (VariableNode "x") = Plotted lines.
Proof.
  refine (proj2 (plot_within_completes 2 home (VariableNode "x") _) _ _).
  - by intros ?%elem_of_nil.
  - reflexivity.
  - apply Forall_forall. intros x Hx.
    exists (default 0%float (match screenx_to_coord home x with
                             | Ok xv => Some xv
                             | Raise _ => None
                             end)).
    eexists. split_and!; [|reflexivity|done].
    unfold screenx_to_coord, float_truediv. reflexivity.
Defined.

Lemma plot_within_stops_witness :
  ∃ x, (0 ≤ x < WIDTH)%Z ∧
    ((KeyError "y" = ZeroDivisionError ∧ (scale home =? 0)%float = true) ∨
     (∃ xv, screenx_to_coord home x = Ok xv ∧
            eval_node_within main_noannotate.functions 2
              (ExprNode "+" (VariableNode "x") (VariableNode "y")) {["x" := xv]}
            = Within (Raise (KeyError "y")) ∧
            caught (KeyError "y") = false)).
Proof.
  refine (proj1 (plot_within_stops 2 home
                   (ExprNode "+" (VariableNode "x") (VariableNode "y")) _) _ _).
  - intros H. apply list_elem_of_In in H. simpl in H. by destruct H as [[=]|[]].
  - vm_compute. reflexivity.
Defined.

End FurtherClosedInputs.
